(** * cuszplus_f32: a shallow embedding of the float codec

    The development follows [src/cuszplus_f32.cu]: the serialization helpers,
    the bit tools, the interleave kernels, the compression and decompression
    kernels (one thread at a time, then one block of [BLOCK_SIZE] threads),
    and the two host drivers [FloatCompressor::Compress] and
    [FloatDecompressor::Decompress].

    Conventions.
    - A [uint32_t] is a [Z] in [0, 2^32); every operation that can leave that
      range is wrapped with [u32].  An [int32_t] is a [Z] in [-2^31, 2^31),
      wrapped with [s32].
    - A shift by 32 or more is undefined in C++; the device instruction clamps
      the amount, which gives 0 for a 32-bit operand.  Shifting in [Z] and
      wrapping with [u32] gives the same values.
    - An array is a [list Z]; a read outside the list yields 0 and a write
      outside it is dropped (both are out-of-bounds accesses in the source).
    - The only floating-point expression of the compression kernel,
      [__float2int_rn(original_data[k] * (1.0f / epsilon))], is taken as a
      function [quant_of k] of the float index; the only one of the
      decompression kernel, [curr_quant * epsilon], is represented by
      [curr_quant].  For [epsilon = 1.0f] and integer-valued floats below
      2^24 both are exact, so [quant_of k] is the input float itself and
      [curr_quant] is the output float. *)

From Stdlib Require Import ZArith List Lia Bool Arith.
Import ListNotations.

Local Open Scope Z_scope.

(** ** Constants *)

Definition kZstdCompressionLevel : Z := 1.
Definition kMagic : Z := 0xCA7DD007.
Definition kHeaderBytes : Z := 4 + 4 + 4.

Definition BLOCK_SIZE : nat := 256.
Definition QUANT_GROUP_SIZE : nat := 32.
Definition THREAD_GROUP_COUNT : nat := 4.
Definition THREAD_FLOAT_COUNT : nat := THREAD_GROUP_COUNT * QUANT_GROUP_SIZE.
Definition BLOCK_FLOAT_COUNT : nat := BLOCK_SIZE * THREAD_FLOAT_COUNT.
Definition BLOCK_PARAM_COUNT : nat := BLOCK_SIZE * THREAD_GROUP_COUNT.
Definition PARAM_SIZE : nat := 4 + 1 + 1.
Definition sizeof_uint32_t : Z := 4.
Definition sizeof_float : Z := 4.

(** ** Machine integers *)

Definition u32 (x : Z) : Z := x mod 2 ^ 32.
Definition s32 (x : Z) : Z := (x + 2 ^ 31) mod 2 ^ 32 - 2 ^ 31.
Definition u8 (x : Z) : Z := x mod 2 ^ 8.

(** Array write [a[k] = v]. *)
Fixpoint upd (a : list Z) (k : nat) (v : Z) : list Z :=
  match a, k with
  | [], _ => []
  | _ :: t, O => v :: t
  | h :: t, S k' => h :: upd t k' v
  end.

(** Consecutive writes [a[k] = v0; a[k+1] = v1; ...]. *)
Fixpoint upd_range (a : list Z) (k : nat) (vs : list Z) : list Z :=
  match vs with
  | [] => a
  | v :: vs' => upd_range (upd a k v) (S k) vs'
  end.

(** ** Serialization *)

Definition read_uint32_le (buffer : list Z) (off : nat) : Z :=
  Z.lor (Z.lor (Z.lor (nth off buffer 0)
                      (Z.shiftl (nth (off + 1) buffer 0) 8))
               (Z.shiftl (nth (off + 2) buffer 0) 16))
        (Z.shiftl (nth (off + 3) buffer 0) 24).

Definition write_uint32_le (value : Z) : list Z :=
  [u8 value; u8 (Z.shiftr value 8); u8 (Z.shiftr value 16); u8 (Z.shiftr value 24)].

(** The byte indices touched by [read_uint32_le(buffer + off)]. *)
Definition read_uint32_le_indices (off : nat) : list nat :=
  [off; off + 1; off + 2; off + 3]%nat.

(** ** Tools *)

(** [__clz]: the number of leading zero bits of a 32-bit word. *)
Definition clz (x : Z) : Z := if x =? 0 then 32 else 31 - Z.log2 x.

Definition bit_count (x : Z) : Z := sizeof_uint32_t * 8 - clz x.

(** The parameter is a [uint32_t], so [x >> 31] is a logical shift. *)
Definition zigzag_encode (x : Z) : Z :=
  Z.lxor (u32 (Z.shiftl x 1)) (Z.shiftr x 31).

(** Unsigned arithmetic throughout, converted to [int32_t] on return. *)
Definition zigzag_decode (x : Z) : Z :=
  s32 (Z.lxor (Z.shiftr x 1) (u32 (- Z.land x 1))).

(** ** Interleave kernels ([INTERLEAVE_BITS == 1]) *)

(** One iteration of the outer loop of [interleave_words_1bit]: the word
    written to [output[shift]]. *)
Definition interleave_slice (input : list Z) (shift : nat) : Z :=
  let mask := u32 (Z.shiftl 1 (Z.of_nat shift)) in
  let lane i := Z.shiftr (Z.land (nth i input 0) mask) (Z.of_nat shift) in
  fold_left
    (fun result i => Z.lor result (u32 (Z.shiftl (lane i) (Z.of_nat i))))
    (seq 1 31) (lane 0%nat).

(** The words [output[0 .. bits-1]] written by [interleave_words_1bit]. *)
Definition interleave_words_1bit (input : list Z) (bits : nat) : list Z :=
  map (interleave_slice input) (seq 0 bits).

(** One iteration of the outer loop of [deinterleave_words_1bit]: the word
    written to [output[i]]. *)
Definition deinterleave_lane (input : list Z) (bits : nat) (i : nat) : Z :=
  fold_left
    (fun result j =>
       Z.lor result
             (u32 (Z.shiftl (Z.land (Z.shiftr (nth j input 0) (Z.of_nat i)) 1)
                            (Z.of_nat j))))
    (seq 0 bits) 0.

(** The words [output[0 .. 31]] written by [deinterleave_words_1bit]. *)
Definition deinterleave_words_1bit (input : list Z) (bits : nat) : list Z :=
  map (deinterleave_lane input bits) (seq 0 32).

(** ** Compression kernel *)

(** The region of [compressed_data] owned by one block, seen through the
    pointer casts of the kernels. *)
Record block_data := mkBlock {
  b_max_index : list Z;  (* bytes [0, BLOCK_PARAM_COUNT) *)
  b_bits : list Z;       (* bytes [BLOCK_PARAM_COUNT, 2 * BLOCK_PARAM_COUNT) *)
  b_high : list Z;       (* uint32_t table at byte BLOCK_PARAM_COUNT * 2 *)
  b_words : list Z       (* uint32_t words at byte BLOCK_PARAM_COUNT * PARAM_SIZE *)
}.

Definition empty_block : block_data :=
  {| b_max_index := repeat 0 BLOCK_PARAM_COUNT;
     b_bits := repeat 0 BLOCK_PARAM_COUNT;
     b_high := repeat 0 BLOCK_PARAM_COUNT;
     b_words := repeat 0 BLOCK_FLOAT_COUNT |}.

(** [max_quant], [max2_quant] and [max_index] of the group being scanned. *)
Record maxes := mkMaxes { max_quant : Z; max2_quant : Z; max_index : Z }.

(** "Update max_quant and max2_quant". *)
Definition update_max (zig_quant : Z) (j : nat) (m : maxes) : maxes :=
  if max_quant m <? zig_quant then
    {| max_quant := zig_quant; max2_quant := max_quant m;
       max_index := u8 (Z.of_nat j) |}
  else if max2_quant m <? zig_quant then
    {| max_quant := max_quant m; max2_quant := zig_quant;
       max_index := max_index m |}
  else m.

(** The scan of a whole group of residuals, as the inner loop performs it. *)
Definition scan_from (j0 : nat) (zigs : list Z) (m : maxes) : maxes :=
  fold_left (fun m jz => update_max (snd jz) (fst jz) m)
            (combine (seq j0 (length zigs)) zigs) m.

Definition scan_group (zigs : list Z) : maxes :=
  scan_from 0 zigs {| max_quant := 0; max2_quant := 0; max_index := 0 |}.

(** [int float_index = thread_idx * THREAD_FLOAT_COUNT + j;] in the
    compression kernel: the group number [i] does not occur. *)
Definition compress_float_index (thread_idx : Z) (i j : nat) : Z :=
  thread_idx * Z.of_nat THREAD_FLOAT_COUNT + Z.of_nat j.

(** [int float_index = block_float_start + i * QUANT_GROUP_SIZE + j;] in the
    decompression kernel. *)
Definition decompress_float_index (thread_idx : Z) (i j : nat) : Z :=
  thread_idx * Z.of_nat THREAD_FLOAT_COUNT
  + Z.of_nat i * Z.of_nat QUANT_GROUP_SIZE + Z.of_nat j.

(** State of the inner loop over [j]. *)
Record quant_state := mkQuant {
  qs_prev_quant : Z;
  qs_quant_group : list Z;
  qs_maxes : maxes
}.

Definition quantize_step (quant_of : Z -> Z) (thread_idx : Z) (i : nat)
    (s : quant_state) (j : nat) : quant_state :=
  let float_index := compress_float_index thread_idx i j in
  let quant := quant_of float_index in
  let delta := s32 (quant - qs_prev_quant s) in
  let zig_quant := zigzag_encode (u32 delta) in
  {| qs_prev_quant := quant;
     qs_quant_group :=
       upd (qs_quant_group s) (i * QUANT_GROUP_SIZE + j) zig_quant;
     qs_maxes := update_max zig_quant j (qs_maxes s) |}.

(** Thread-local variables that survive the first loop. *)
Record thread_locals := mkLocals {
  quant_group : list Z;   (* uint32_t quant_group[THREAD_FLOAT_COUNT] *)
  group_bits : list Z;    (* uint8_t group_bits[THREAD_GROUP_COUNT] *)
  used_words : Z;
  prev_quant : Z
}.

Definition initial_locals : thread_locals :=
  {| quant_group := repeat 0 THREAD_FLOAT_COUNT;
     group_bits := repeat 0 THREAD_GROUP_COUNT;
     used_words := 0;
     prev_quant := 0 |}.

(** "Increment write count for this quantization group":
    [used_words += bits * QUANT_GROUP_SIZE / sizeof(uint32_t);] *)
Definition add_used_words (used bits : Z) : Z :=
  u32 (used + u32 (bits * Z.of_nat QUANT_GROUP_SIZE) / sizeof_uint32_t).

(** [blockIdx.x * blockDim.x + threadIdx.x], with [blockDim.x = BLOCK_SIZE]
    as both launches set it. *)
Definition global_thread_idx (blockIdx threadIdx : nat) : Z :=
  Z.of_nat blockIdx * Z.of_nat BLOCK_SIZE + Z.of_nat threadIdx.

(** One iteration of the first loop over [i]. *)
Definition compress_group (quant_of : Z -> Z) (thread_idx : Z) (threadIdx : nat)
    (st : thread_locals * block_data) (i : nat) : thread_locals * block_data :=
  let (loc, blk) := st in
  let s := fold_left (quantize_step quant_of thread_idx i)
                     (seq 0 QUANT_GROUP_SIZE)
                     {| qs_prev_quant := prev_quant loc;
                        qs_quant_group := quant_group loc;
                        qs_maxes := {| max_quant := 0; max2_quant := 0;
                                       max_index := 0 |} |} in
  let m := qs_maxes s in
  let bits := bit_count (max2_quant m) in
  let slot := (THREAD_GROUP_COUNT * threadIdx + i)%nat in
  ({| quant_group := qs_quant_group s;
      group_bits := upd (group_bits loc) i (u8 bits);
      used_words := add_used_words (used_words loc) bits;
      prev_quant := qs_prev_quant s |},
   {| b_max_index := upd (b_max_index blk) slot (u8 (max_index m));
      b_bits := upd (b_bits blk) slot (u8 bits);
      b_high := upd (b_high blk) slot (Z.shiftr (max_quant m) bits);
      b_words := b_words blk |}).

(** The kernel up to the first barrier, for one thread. *)
Definition compress_params (quant_of : Z -> Z) (thread_idx : Z) (threadIdx : nat)
    (blk : block_data) : thread_locals * block_data :=
  fold_left (compress_group quant_of thread_idx threadIdx)
            (seq 0 THREAD_GROUP_COUNT) (initial_locals, blk).

(** [cub::BlockScan::ExclusiveSum]: the thread of rank [t] receives the sum
    of the inputs of the threads of rank below [t]. *)
Fixpoint exclusive_sum_from (acc : Z) (xs : list Z) : list Z :=
  match xs with
  | [] => []
  | x :: xs' => acc :: exclusive_sum_from (u32 (acc + x)) xs'
  end.

Definition ExclusiveSum (xs : list Z) : list Z := exclusive_sum_from 0 xs.

(** One iteration of the second loop over [i]; [cursor] is
    [compressed_words] as a word index into the packed region. *)
Definition pack_group (loc : thread_locals) (st : list Z * nat) (i : nat)
    : list Z * nat :=
  let (words, cursor) := st in
  let bits := Z.to_nat (nth i (group_bits loc) 0) in
  (upd_range words cursor
     (interleave_words_1bit
        (skipn (i * QUANT_GROUP_SIZE) (quant_group loc)) bits),
   (cursor + bits)%nat).

(** The kernel after the second barrier, for one thread. *)
Definition compress_pack (loc : thread_locals) (offset : Z) (words : list Z)
    : list Z * nat :=
  fold_left (pack_group loc) (seq 0 THREAD_GROUP_COUNT)
            (words, Z.to_nat offset).

(** The word index at which the second loop writes group [i]. *)
Definition encoder_group_offset (loc : thread_locals) (offset : Z) (i : nat)
    : nat :=
  snd (fold_left (pack_group loc) (seq 0 i) ([], Z.to_nat offset)).

(** What one block of [BLOCK_SIZE] threads leaves behind. *)
Record block_result := mkBlockResult {
  r_block : block_data;
  r_locals : list thread_locals;
  r_offsets : list Z;
  r_block_used_words : Z
}.

(** [SZplus_compress_kernel_f32] for the block [blockIdx]; the threads run
    one after the other in each of the three phases the barriers delimit. *)
Definition SZplus_compress_kernel_f32 (quant_of : Z -> Z) (blockIdx : nat)
    (blk0 : block_data) : block_result :=
  let threads := seq 0 BLOCK_SIZE in
  let phase1 :=
    fold_left
      (fun (acc : list thread_locals * block_data) threadIdx =>
         let (loc, blk) :=
           compress_params quant_of (global_thread_idx blockIdx threadIdx)
                           threadIdx (snd acc) in
         (fst acc ++ [loc], blk))
      threads ([], blk0) in
  let locs := fst phase1 in
  let blk1 := snd phase1 in
  let offsets := ExclusiveSum (map used_words locs) in
  let last := (BLOCK_SIZE - 1)%nat in
  let words :=
    fold_left
      (fun words threadIdx =>
         fst (compress_pack (nth threadIdx locs initial_locals)
                            (nth threadIdx offsets 0) words))
      threads (b_words blk1) in
  {| r_block := {| b_max_index := b_max_index blk1; b_bits := b_bits blk1;
                   b_high := b_high blk1; b_words := words |};
     r_locals := locs;
     r_offsets := offsets;
     r_block_used_words :=
       u32 (nth last offsets 0 + used_words (nth last locs initial_locals)) |}.

(** ** Decompression kernel *)

(** [(high << bits) | ((1 << bits) - 1)] *)
Definition restore_max (high bits : Z) : Z :=
  Z.lor (u32 (Z.shiftl high bits)) (u32 (Z.shiftl 1 bits - 1)).

(** One iteration of the loop over [i] up to "Restore the max value":
    the thread-local [quant_group] and the advanced [compressed_words]. *)
Definition unpack_group (blk : block_data) (threadIdx : nat)
    (qg : list Z) (cursor : nat) (i : nat) : list Z * nat :=
  let slot := (THREAD_GROUP_COUNT * threadIdx + i)%nat in
  let max_index := nth slot (b_max_index blk) 0 in
  let bits := nth slot (b_bits blk) 0 in
  let max_quant := restore_max (nth slot (b_high blk) 0) bits in
  let base := (i * QUANT_GROUP_SIZE)%nat in
  let qg1 :=
    if bits =? 0 then upd_range qg base (repeat 0 QUANT_GROUP_SIZE)
    else upd_range qg base
           (deinterleave_words_1bit (skipn cursor (b_words blk))
                                    (Z.to_nat bits)) in
  (upd qg1 (base + Z.to_nat max_index) max_quant,
   (cursor + Z.to_nat bits)%nat).

Record decode_state := mkDecode {
  d_quant_group : list Z;
  d_prev_quant : Z;
  d_cursor : nat;
  d_floats : list Z   (* decompressed_floats, each entry standing for
                         [entry * epsilon] *)
}.

(** "Zig-zag decode and inverse delta encoding", one iteration over [j]. *)
Definition undelta_step (thread_idx : Z) (i : nat) (qg : list Z)
    (st : Z * list Z) (j : nat) : Z * list Z :=
  let (prev, floats) := st in
  let curr_quant :=
    s32 (zigzag_decode (nth (i * QUANT_GROUP_SIZE + j) qg 0) + prev) in
  (curr_quant,
   upd floats (Z.to_nat (decompress_float_index thread_idx i j)) curr_quant).

Definition decompress_group (blk : block_data) (thread_idx : Z)
    (threadIdx : nat)
    (s : decode_state) (i : nat) : decode_state :=
  let (qg, cursor) :=
    unpack_group blk threadIdx (d_quant_group s) (d_cursor s) i in
  let (prev, floats) :=
    fold_left (undelta_step thread_idx i qg) (seq 0 QUANT_GROUP_SIZE)
              (d_prev_quant s, d_floats s) in
  {| d_quant_group := qg; d_prev_quant := prev; d_cursor := cursor;
     d_floats := floats |}.

(** The word index from which the decoder reads group [i] of a thread:
    [compressed_words] starts at the packed region of the block for every
    thread and advances by [bits] per group. *)
Definition decoder_group_offset (blk : block_data) (threadIdx i : nat) : nat :=
  d_cursor
    (fold_left (decompress_group blk (Z.of_nat threadIdx) threadIdx) (seq 0 i)
       {| d_quant_group := repeat 0 THREAD_FLOAT_COUNT; d_prev_quant := 0;
          d_cursor := 0; d_floats := [] |}).

(** [SZplus_decompress_kernel_f32] for one thread. *)
Definition decompress_thread (blk : block_data) (thread_idx : Z)
    (threadIdx : nat) (floats : list Z) : list Z :=
  d_floats
    (fold_left (decompress_group blk thread_idx threadIdx)
       (seq 0 THREAD_GROUP_COUNT)
       {| d_quant_group := repeat 0 THREAD_FLOAT_COUNT; d_prev_quant := 0;
          d_cursor := 0; d_floats := floats |}).

(** [SZplus_decompress_kernel_f32] for the block [blockIdx]. *)
Definition SZplus_decompress_kernel_f32 (blk : block_data) (blockIdx : nat)
    (floats : list Z) : list Z :=
  fold_left
    (fun floats threadIdx =>
       decompress_thread blk (global_thread_idx blockIdx threadIdx) threadIdx
                         floats)
    (seq 0 BLOCK_SIZE) floats.

(** ** Inputs used below *)

(** [F[i] = i] for [i < BLOCK_FLOAT_COUNT], [epsilon = 1.0f]: one full
    block, every float an exact small integer. *)
Definition ramp (k : Z) : Z := k.

(** ** The entropy coder and the device runtime, as the drivers see them *)

(** A [size_t] result code: [ZSTD_isError] holds of [ZError] only. *)
Inductive zresult := ZError | ZOk (n : nat).

(** The [pos] and [size] fields of a [ZSTD_inBuffer] or [ZSTD_outBuffer]. *)
Record zbuffer := mkBuf { zpos : nat; zsize : nat }.

(** What a driver call returns. *)
Inductive outcome := Returned (b : bool) | Threw.

(** Conversion of an [int] to [bool], as in [return -1;]. *)
Definition bool_of_int (n : Z) : bool := negb (n =? 0).

(** [(float_count + BLOCK_FLOAT_COUNT - 1) / BLOCK_FLOAT_COUNT] on [int]. *)
Definition block_count_of (float_count : Z) : Z :=
  Z.quot (s32 (float_count + Z.of_nat BLOCK_FLOAT_COUNT - 1))
         (Z.of_nat BLOCK_FLOAT_COUNT).

(** [BLOCK_PARAM_COUNT*PARAM_SIZE + BLOCK_FLOAT_COUNT*sizeof(float)] *)
Definition block_bytes : nat :=
  (BLOCK_PARAM_COUNT * PARAM_SIZE + BLOCK_FLOAT_COUNT * 4)%nat.

(** [BLOCK_PARAM_COUNT * PARAM_SIZE + used_words * 4] on [uint32_t]. *)
Definition block_used_bytes (used_words : Z) : Z :=
  u32 (Z.of_nat (BLOCK_PARAM_COUNT * PARAM_SIZE) + used_words * 4).

Module Compressor.
Section Driver.

Variable cstate : Type.
(** [ZSTD_compressStream(zcs, &output, &input)]: result code, new coder
    state, new [output.pos], new [input.pos]. *)
Variable ZSTD_compressStream :
  cstate -> zbuffer -> zbuffer -> zresult * cstate * nat * nat.
(** [ZSTD_endStream(zcs, &output)]. *)
Variable ZSTD_endStream : cstate -> zbuffer -> zresult * cstate * nat.

(** Results of the runtime calls whose status the driver can see. *)
Record env := mkEnv {
  cudaMalloc_ok : bool;
  cudaMallocManaged_ok : bool;
  ZSTD_createCStream_ok : bool;
  ZSTD_initCStream_ok : bool;
  zcs0 : cstate
}.

(** [while (input.pos < input.size) { ... }]; [None] when the fuel runs
    out, [Some None] for [return false]. *)
Fixpoint feed (fuel : nat) (zcs : cstate) (output input : zbuffer)
    : option (option (cstate * zbuffer)) :=
  if (zpos input <? zsize input)%nat then
    match fuel with
    | O => None
    | S fuel' =>
        match ZSTD_compressStream zcs output input with
        | (ZError, _, _, _) => Some None
        | (ZOk _, zcs', opos, ipos) =>
            if (opos =? zsize output)%nat then Some None
            else feed fuel' zcs' (mkBuf opos (zsize output))
                      (mkBuf ipos (zsize input))
        end
    end
  else Some (Some (zcs, output)).

(** "For each compressed block". *)
Fixpoint feed_blocks (fuel : nat) (zcs : cstate) (output : zbuffer)
    (block_used_words : list Z) : option (option (cstate * zbuffer)) :=
  match block_used_words with
  | [] => Some (Some (zcs, output))
  | used :: rest =>
      match feed fuel zcs output
                 (mkBuf 0 (Z.to_nat (block_used_bytes used))) with
      | Some (Some (zcs', output')) => feed_blocks fuel zcs' output' rest
      | r => r
      end
  end.

(** "Flush the zstd stream"; the result is [output.pos]. *)
Fixpoint flush (fuel : nat) (zcs : cstate) (output : zbuffer)
    : option (option nat) :=
  match fuel with
  | O => None
  | S fuel' =>
      match ZSTD_endStream zcs output with
      | (ZError, _, _) => Some None
      | (ZOk O, _, opos) => Some (Some opos)
      | (ZOk (S _), zcs', opos) =>
          if (opos =? zsize output)%nat then Some None
          else flush fuel' zcs' (mkBuf opos (zsize output))
      end
  end.

(** [FloatCompressor::Compress]: the value returned, [None] when the fuel
    runs out.  [cudaMemcpy], [cudaStreamCreate], the kernel launch and
    [cudaDeviceSynchronize] are not checked by the driver, so their
    status does not occur. *)
Definition Compress (fuel : nat) (e : env) (quant_of : Z -> Z)
    (float_count : Z) : option bool :=
  if negb (cudaMalloc_ok e) then Some (bool_of_int (-1))
  else
    let block_count := Z.to_nat (block_count_of float_count) in
    if negb (cudaMallocManaged_ok e) then Some (bool_of_int (-1))
    else
      let block_used_words :=
        map (fun b => r_block_used_words
                        (SZplus_compress_kernel_f32 quant_of b empty_block))
            (seq 0 block_count) in
      if negb (ZSTD_createCStream_ok e) then Some false
      else if negb (ZSTD_initCStream_ok e) then Some false
      else
        let output := mkBuf 0 (block_bytes * block_count) in
        let header := mkBuf 0 (Z.to_nat kHeaderBytes + block_count * 4) in
        match feed fuel (zcs0 e) output header with
        | None => None
        | Some None => Some false
        | Some (Some (zcs1, output1)) =>
            match feed_blocks fuel zcs1 output1 block_used_words with
            | None => None
            | Some None => Some false
            | Some (Some (zcs2, output2)) =>
                match flush fuel zcs2 output2 with
                | None => None
                | Some None => Some false
                | Some (Some _) => Some true
                end
            end
        end.

End Driver.
End Compressor.

Module Decompressor.
Section Driver.

Variable dstate : Type.
(** [ZSTD_decompressStream(zds, &output, &input)]: result code, new coder
    state, new [output.pos], new [input.pos]. *)
Variable ZSTD_decompressStream :
  dstate -> zbuffer -> zbuffer -> zresult * dstate * nat * nat.

Record env := mkEnv {
  ZSTD_createDStream_ok : bool;
  ZSTD_initDStream_ok : bool;
  cudaMalloc_floats_ok : bool;
  cudaMalloc_blocks_ok : bool;
  cudaMemcpy_block_ok : nat -> bool;
  cudaGetLastError_ok : bool;
  cudaDeviceSynchronize_ok : bool;
  cudaMemcpy_result_ok : bool;
  zds0 : dstate
}.

(** The byte indices of [data] the driver itself reads while parsing the
    header, in program order: the magic, epsilon, the float count, then
    one word per block. *)
Definition header_reads (block_count : nat) : list nat :=
  read_uint32_le_indices 0 ++ read_uint32_le_indices 4
  ++ read_uint32_le_indices 8
  ++ flat_map (fun i => read_uint32_le_indices
                          (Z.to_nat kHeaderBytes + i * 4))
              (seq 0 block_count).

(** [while (output.pos < block_used_words[i] * 4
            + BLOCK_PARAM_COUNT * PARAM_SIZE) { ... }]:
    [None] when the fuel runs out, [Some None] for [return false]. *)
Fixpoint block_loop (fuel : nat) (target : Z) (zds : dstate)
    (output input : zbuffer) : option (option (dstate * zbuffer * zbuffer)) :=
  if Z.of_nat (zpos output) <? target then
    match fuel with
    | O => None
    | S fuel' =>
        match ZSTD_decompressStream zds output input with
        | (ZError, _, _, _) => Some None
        | (ZOk O, zds', opos, ipos) =>
            Some (Some (zds', mkBuf opos (zsize output),
                        mkBuf ipos (zsize input)))
        | (ZOk (S _), zds', opos, ipos) =>
            block_loop fuel' target zds' (mkBuf opos (zsize output))
                       (mkBuf ipos (zsize input))
        end
    end
  else Some (Some (zds, output, input)).

(** [block_used_words[i] * 4 + BLOCK_PARAM_COUNT * PARAM_SIZE] *)
Definition block_target (used_words : Z) : Z :=
  u32 (used_words * 4 + Z.of_nat (BLOCK_PARAM_COUNT * PARAM_SIZE)).

(** "Decompress each block", from block [i] on: [Some true] when every
    block went through. *)
Fixpoint blocks_loop (fuel : nat) (e : env) (i : nat)
    (block_used_words : list Z) (zds : dstate) (input : zbuffer)
    : option bool :=
  match block_used_words with
  | [] => Some true
  | used :: rest =>
      match block_loop fuel (block_target used) zds
                       (mkBuf 0 block_bytes) input with
      | None => None
      | Some None => Some false
      | Some (Some (zds', _, input')) =>
          if negb (cudaMemcpy_block_ok e i) then Some false
          else blocks_loop fuel e (S i) rest zds' input'
      end
  end.

(** [FloatDecompressor::Decompress]: the header bytes read and the value
    returned ([None] when the fuel runs out).  [compressed_bytes] is the
    length of [data]. *)
Definition Decompress (fuel : nat) (e : env) (data : list Z)
    : list nat * option outcome :=
  let compressed_bytes := Z.of_nat (length data) in
  if compressed_bytes <? kHeaderBytes then ([], Some (Returned false))
  else
    let magic := read_uint32_le data 0 in
    if negb (magic =? kMagic) then
      (read_uint32_le_indices 0, Some (Returned false))
    else
      let float_count := s32 (read_uint32_le data 8) in
      let block_count := block_count_of float_count in
      if block_count <? 0 then
        (* std::vector<uint32_t> block_used_words(block_count) *)
        (header_reads 0, Some Threw)
      else
        let n := Z.to_nat block_count in
        let block_used_words :=
          map (fun i => read_uint32_le data (Z.to_nat kHeaderBytes + i * 4))
              (seq 0 n) in
        (header_reads n,
         if negb (ZSTD_createDStream_ok e) then Some (Returned false)
         else if negb (ZSTD_initDStream_ok e) then Some (Returned false)
         else
           let input := mkBuf (Z.to_nat kHeaderBytes + n * 4) (length data) in
           if negb (cudaMalloc_floats_ok e) then Some (Returned false)
           else if negb (cudaMalloc_blocks_ok e) then Some (Returned false)
           else
             match blocks_loop fuel e 0 block_used_words (zds0 e) input with
             | None => None
             | Some false => Some (Returned false)
             | Some true =>
                 if negb (cudaGetLastError_ok e) then Some (Returned false)
                 else if negb (cudaDeviceSynchronize_ok e)
                      then Some (Returned false)
                 else if negb (cudaMemcpy_result_ok e)
                      then Some (Returned false)
                 else Some (Returned true)
             end).

(** The progress rule of the streaming decoder: a call that neither fails
    nor ends the frame never moves a position backwards, and either
    advances one of them within its buffer or uses up one unit of a
    bounded stall budget kept in the coder state. *)
Definition coder_progress (budget : dstate -> nat) (B : nat) : Prop :=
  (forall zds, (budget zds <= B)%nat) /\
  forall zds output input n zds' opos ipos,
    ZSTD_decompressStream zds output input = (ZOk (S n), zds', opos, ipos) ->
    (zpos output <= opos /\ zpos input <= ipos)%nat /\
    ((zpos output < opos <= zsize output)%nat \/
     (zpos input < ipos <= zsize input)%nat \/
     (budget zds' < budget zds)%nat).

(** What is left before the coder must fail or end the frame: the free room
    of both buffers, weighted by the stall budget. *)
Definition remaining (budget : dstate -> nat) (B : nat) (zds : dstate)
    (output input : zbuffer) : nat :=
  ((zsize output - zpos output) + (zsize input - zpos input)) * S B
  + budget zds.

End Driver.
End Decompressor.

(** ** The allocation rule in the words of the format description *)

Definition sum_bits (bits : list Z) : Z := fold_right Z.add 0 bits.

(** "Each worker computes used_words_w = sum over g of bits_{w,g}". *)
Definition spec_used_words (group_bits : list Z) : Z := sum_bits group_bits.

(** "block_used_words[b] equals the sum of bits over the groups of b". *)
Definition spec_block_used_words (bits_table : list Z) : Z :=
  sum_bits bits_table.

(** "Block-relative word offset of a group equals the exclusive prefix sum
    of its predecessors' bits", in worker-then-group order. *)
Definition spec_group_offset (bits_table : list Z) (w g : nat) : Z :=
  sum_bits (firstn (THREAD_GROUP_COUNT * w + g) bits_table).

(** The word index at which thread [w] of a compressed block wrote its
    group [g]. *)
Definition written_group_offset (r : block_result) (w g : nat) : nat :=
  encoder_group_offset (nth w (r_locals r) initial_locals)
                       (nth w (r_offsets r) 0) g.

(** ** Residuals seen by the scan *)

(** The values [zig_quant] takes in the inner loop over [js], in order. *)
Fixpoint zig_values (quant_of : Z -> Z) (thread_idx : Z) (i : nat) (prev : Z)
    (js : list nat) : list Z :=
  match js with
  | [] => []
  | j :: js' =>
      let quant := quant_of (compress_float_index thread_idx i j) in
      zigzag_encode (u32 (s32 (quant - prev)))
      :: zig_values quant_of thread_idx i quant js'
  end.

(** What the scan knows after the residuals [l]. *)
Record scan_inv (l : list Z) (m : maxes) : Prop := mkScanInv {
  inv_index : max_index m = Z.of_nat (Z.to_nat (max_index m));
  inv_index_lt : l <> [] -> (Z.to_nat (max_index m) < length l)%nat;
  inv_max_at : nth (Z.to_nat (max_index m)) l 0 = max_quant m;
  inv_max : forall k, (k < length l)%nat -> nth k l 0 <= max_quant m;
  inv_first : forall k, (k < Z.to_nat (max_index m))%nat ->
                        nth k l 0 < max_quant m;
  inv_max2 : forall k, (k < length l)%nat -> k <> Z.to_nat (max_index m) ->
                       nth k l 0 <= max2_quant m;
  inv_order : 0 <= max2_quant m <= max_quant m
}.

(** ** Further inputs *)

(** The residuals of the first group of the ramp. *)
Definition ramp_group : list Z :=
  zig_values ramp 0 0 0 (seq 0 QUANT_GROUP_SIZE).

(** One large residual in front of 31 zeros. *)
Definition spike_group : list Z := 2000 :: repeat 0 31.

(** The twelve bytes of a fixed header: [kMagic], [epsilon = 1.0f],
    [float_count = 1]. *)
Definition bare_header : list Z :=
  [0x07; 0xD0; 0x7D; 0xCA; 0x00; 0x00; 0x80; 0x3F; 0x01; 0x00; 0x00; 0x00].

(** A header announcing one block of [0x3FFFF000] packed words, which no
    output buffer of [block_bytes] bytes can hold, then four more bytes. *)
Definition oversized_stream : list Z :=
  bare_header ++ [0x00; 0xF0; 0xFF; 0x3F] ++ [1; 2; 3; 4].

(** A decoder that moves one byte per call, ends the frame with the input
    and fails when the output is full. *)
Definition byte_copier (zds : unit) (output input : zbuffer)
    : zresult * unit * nat * nat :=
  if (zsize input <=? zpos input)%nat then
    (ZOk 0, tt, zpos output, zpos input)
  else if (zsize output <=? zpos output)%nat then
    (ZError, tt, zpos output, zpos input)
  else (ZOk 1, tt, S (zpos output), S (zpos input)).

(** A decoder that asks for more forever without moving anything. *)
Definition stalled_coder (zds : unit) (output input : zbuffer)
    : zresult * unit * nat * nat :=
  (ZOk 1, tt, zpos output, zpos input).

Definition all_ok : Decompressor.env unit :=
  {| Decompressor.ZSTD_createDStream_ok := true;
     Decompressor.ZSTD_initDStream_ok := true;
     Decompressor.cudaMalloc_floats_ok := true;
     Decompressor.cudaMalloc_blocks_ok := true;
     Decompressor.cudaMemcpy_block_ok := fun _ => true;
     Decompressor.cudaGetLastError_ok := true;
     Decompressor.cudaDeviceSynchronize_ok := true;
     Decompressor.cudaMemcpy_result_ok := true;
     Decompressor.zds0 := tt |}.

(** A parameter table with one group: [max_index = 5], [bits = 3],
    [high = 9]. *)
Definition one_group (words : list Z) : block_data :=
  {| b_max_index := [5]; b_bits := [3]; b_high := [9]; b_words := words |}.

(** ** Zigzag on signed values *)

(** The zigzag map of the article the source cites, on signed values:
    [(n << 1) ^ (n >> 31)] with an arithmetic right shift. *)
Definition signed_zigzag (n : Z) : Z := if n <? 0 then - 2 * n - 1 else 2 * n.

(** ** Interleave kernels of the other tile widths *)

(** The values [shift] takes in [for (shift = 0; shift < bits; shift += w)]
    (and [j] in the loops of the deinterleavers). *)
Definition tile_shifts (w bits : nat) : list nat :=
  map (fun t => (t * w)%nat) (seq 0 ((bits + w - 1) / w)).

(** One accumulator of a tiled interleaver after its inner loop:
    [result |= ((input[i + off] & mask) >> shift) << (i * w)], [i < n]. *)
Definition gather (w n : nat) (mask : Z) (input : list Z) (shift off : nat)
    : Z :=
  fold_left
    (fun result i =>
       Z.lor result
             (u32 (Z.shiftl
                     (Z.shiftr (Z.land (nth (i + off) input 0) mask)
                               (Z.of_nat shift))
                     (Z.of_nat (i * w)))))
    (seq 0 n) 0.

(** One accumulator of a tiled deinterleaver after its inner loop:
    [result |= ((input[j + k] >> (i * w)) & field) << j],
    [j = 0, w, 2w, ... < bits]. *)
Definition scatter (w : nat) (field : Z) (input : list Z) (bits i k : nat)
    : Z :=
  fold_left
    (fun result j =>
       Z.lor result
             (u32 (Z.shiftl
                     (Z.land (Z.shiftr (nth (j + k) input 0)
                                       (Z.of_nat (i * w)))
                             field)
                     (Z.of_nat j))))
    (tile_shifts w bits) 0.

(** The words [output[0 ..]] written by [interleave_words_2bit]: two per
    iteration, at [output[shift]] and [output[shift + 1]]. *)
Definition interleave_words_2bit (input : list Z) (bits : nat) : list Z :=
  flat_map
    (fun shift =>
       let mask := u32 (Z.shiftl 0x3 (Z.of_nat shift)) in
       [gather 2 16 mask input shift 0; gather 2 16 mask input shift 16])
    (tile_shifts 2 bits).

Definition interleave_words_4bit (input : list Z) (bits : nat) : list Z :=
  flat_map
    (fun shift =>
       let mask := u32 (Z.shiftl 0xF (Z.of_nat shift)) in
       [gather 4 8 mask input shift 0; gather 4 8 mask input shift 8;
        gather 4 8 mask input shift 16; gather 4 8 mask input shift 24])
    (tile_shifts 4 bits).

Definition interleave_words_8bit (input : list Z) (bits : nat) : list Z :=
  flat_map
    (fun shift =>
       let mask := u32 (Z.shiftl 0xFF (Z.of_nat shift)) in
       [gather 8 4 mask input shift 0; gather 8 4 mask input shift 4;
        gather 8 4 mask input shift 8; gather 8 4 mask input shift 12;
        gather 8 4 mask input shift 16; gather 8 4 mask input shift 20;
        gather 8 4 mask input shift 24; gather 8 4 mask input shift 28])
    (tile_shifts 8 bits).

(** The words [output[0 .. 31]] written by [deinterleave_words_2bit]:
    [output[i] = result_0] and [output[i + 16] = result_1] for [i < 16]. *)
Definition deinterleave_words_2bit (input : list Z) (bits : nat) : list Z :=
  map (fun i => scatter 2 3 input bits i 0) (seq 0 16)
  ++ map (fun i => scatter 2 3 input bits i 1) (seq 0 16).

Definition deinterleave_words_4bit (input : list Z) (bits : nat) : list Z :=
  map (fun i => scatter 4 0xF input bits i 0) (seq 0 8)
  ++ map (fun i => scatter 4 0xF input bits i 1) (seq 0 8)
  ++ map (fun i => scatter 4 0xF input bits i 2) (seq 0 8)
  ++ map (fun i => scatter 4 0xF input bits i 3) (seq 0 8).

Definition deinterleave_words_8bit (input : list Z) (bits : nat) : list Z :=
  map (fun i => scatter 8 0xFF input bits i 0) (seq 0 4)
  ++ map (fun i => scatter 8 0xFF input bits i 1) (seq 0 4)
  ++ map (fun i => scatter 8 0xFF input bits i 2) (seq 0 4)
  ++ map (fun i => scatter 8 0xFF input bits i 3) (seq 0 4)
  ++ map (fun i => scatter 8 0xFF input bits i 4) (seq 0 4)
  ++ map (fun i => scatter 8 0xFF input bits i 5) (seq 0 4)
  ++ map (fun i => scatter 8 0xFF input bits i 6) (seq 0 4)
  ++ map (fun i => scatter 8 0xFF input bits i 7) (seq 0 4).

(** The three interleavers as one, for a tile of [w] bits and [n = 32 / w]
    input words per output word. *)
Definition interleave_tiled (w n : nat) (input : list Z) (bits : nat)
    : list Z :=
  flat_map
    (fun shift =>
       map (fun k =>
              gather w n
                     (u32 (Z.shiftl (Z.ones (Z.of_nat w)) (Z.of_nat shift)))
                     input shift (k * n))
           (seq 0 w))
    (tile_shifts w bits).

Definition deinterleave_tiled (w n : nat) (input : list Z) (bits : nat)
    : list Z :=
  flat_map
    (fun k => map (fun i => scatter w (Z.ones (Z.of_nat w)) input bits i k)
                  (seq 0 n))
    (seq 0 w).

(** The tile widths of the source other than 1. *)
Definition tile (w n : nat) : Prop :=
  (w = 2 /\ n = 16)%nat \/ (w = 4 /\ n = 8)%nat \/ (w = 8 /\ n = 4)%nat.

(** ** What the threads of a block have established *)

(** What the first loop has established after [k] groups. *)
Record counted (k : nat) (loc : thread_locals) : Prop := mkCounted {
  counted_length : length (group_bits loc) = THREAD_GROUP_COUNT;
  counted_range : Forall (fun b => 0 <= b <= 32) (group_bits loc);
  counted_rest : forall i, (k <= i)%nat -> nth i (group_bits loc) 0 = 0;
  counted_words : used_words loc = 8 * sum_bits (group_bits loc)
}.

(** The kernel up to the first barrier for the threads [0 .. n-1] of a
    block, run one after the other: their locals and the block. *)
Definition block_params (quant_of : Z -> Z) (blockIdx n : nat)
    (blk0 : block_data) : list thread_locals * block_data :=
  fold_left
    (fun (acc : list thread_locals * block_data) threadIdx =>
       let (loc, blk) :=
         compress_params quant_of (global_thread_idx blockIdx threadIdx)
                         threadIdx (snd acc) in
       (fst acc ++ [loc], blk))
    (seq 0 n) ([], blk0).

(** What the threads [0 .. n-1] have established at the first barrier. *)
Record params_ready (n : nat) (st : list thread_locals * block_data)
    : Prop := mkReady {
  ready_count : length (fst st) = n;
  ready_table : length (b_bits (snd st)) = BLOCK_PARAM_COUNT;
  ready_thread :
    forall t, (t < n)%nat ->
      let loc := nth t (fst st) initial_locals in
      length (group_bits loc) = THREAD_GROUP_COUNT /\
      Forall (fun b => 0 <= b <= 32) (group_bits loc) /\
      used_words loc = 8 * sum_bits (group_bits loc) /\
      forall i, (i < THREAD_GROUP_COUNT)%nat ->
        nth (THREAD_GROUP_COUNT * t + i) (b_bits (snd st)) 0
        = nth i (group_bits loc) 0
}.

(** ** Sample inputs *)

(** Thread locals with one group of width 3 whose residuals are all 5. *)
Definition sample_locals : thread_locals :=
  {| quant_group := repeat 5 THREAD_FLOAT_COUNT;
     group_bits := [3; 0; 0; 0];
     used_words := 24;
     prev_quant := 0 |}.

(** Thirty-two distinct words. *)
Definition sample_words : list Z := map Z.of_nat (seq 100 32).

(** * Properties *)

(** ** Arrays *)

Lemma nth_map_lt {A B : Type} (f : A -> B) (l : list A) (i : nat) (d : B)
    (d' : A) :
  (i < length l)%nat -> nth i (map f l) d = f (nth i l d').
Proof.
  revert i; induction l as [|a l IH]; simpl; intros i Hi; [lia|].
  destruct i; [reflexivity|]. apply IH. lia.
Qed.

Lemma length_upd (a : list Z) (k : nat) (v : Z) : length (upd a k v) = length a.
Proof.
  revert k; induction a as [|h t IH]; intros [|k]; simpl; auto.
Qed.

Lemma length_upd_range (vs a : list Z) (k : nat) :
  length (upd_range a k vs) = length a.
Proof.
  revert a k; induction vs as [|v vs IH]; intros a k; simpl; [reflexivity|].
  now rewrite IH, length_upd.
Qed.

Lemma nth_upd_same (a : list Z) (k : nat) (v d : Z) :
  (k < length a)%nat -> nth k (upd a k v) d = v.
Proof.
  revert k; induction a as [|h t IH]; intros [|k] Hk; simpl in *;
    try lia. apply IH. lia.
Qed.

Lemma nth_upd_other (a : list Z) (k j : nat) (v d : Z) :
  j <> k -> nth j (upd a k v) d = nth j a d.
Proof.
  revert k j; induction a as [|h t IH]; intros [|k] [|j] Hne; simpl;
    try reflexivity; try congruence.
  apply IH. congruence.
Qed.

(** ** Bit interleaver *)

(** *** Bits of an or-accumulating loop *)

Lemma testbit_or_fold (f : nat -> Z) (l : list nat) (a n : Z) :
  Z.testbit (fold_left (fun r i => Z.lor r (f i)) l a) n
  = Z.testbit a n || existsb (fun i => Z.testbit (f i) n) l.
Proof.
  revert a; induction l as [|i l IH]; intros a; simpl.
  - now rewrite orb_false_r.
  - rewrite IH, Z.lor_spec. now rewrite orb_assoc.
Qed.

Lemma testbit_b2z (c : bool) (m : Z) :
  Z.testbit (Z.b2z c) m = c && (m =? 0).
Proof.
  destruct c; simpl.
  - change 1 with (2 ^ 0). rewrite Z.pow2_bits_eqb by lia.
    apply Z.eqb_sym.
  - apply Z.bits_0.
Qed.

(** [(x & (1 << s)) >> s] and [(x >> s) & 1] both isolate bit [s]. *)
Lemma mask_shift_bit (x s : Z) :
  0 <= s -> Z.shiftr (Z.land x (2 ^ s)) s = Z.b2z (Z.testbit x s).
Proof.
  intros Hs. apply Z.bits_inj'. intros m Hm.
  rewrite Z.shiftr_spec, Z.land_spec, Z.pow2_bits_eqb, testbit_b2z by lia.
  destruct (Z.eqb_spec m 0) as [->|Hne].
  - rewrite Z.add_0_l, Z.eqb_refl. now rewrite !andb_true_r.
  - replace (s =? m + s) with false by (symmetry; apply Z.eqb_neq; lia).
    now rewrite !andb_false_r.
Qed.

Lemma shift_mask_bit (w i : Z) :
  0 <= i -> Z.land (Z.shiftr w i) 1 = Z.b2z (Z.testbit w i).
Proof.
  intros Hi. apply Z.bits_inj'. intros m Hm.
  rewrite Z.land_spec, Z.shiftr_spec, testbit_b2z by lia.
  change 1 with (2 ^ 0). rewrite Z.pow2_bits_eqb by lia.
  destruct (Z.eqb_spec m 0) as [->|Hne].
  - now rewrite Z.add_0_l, Z.eqb_refl.
  - replace (0 =? m) with false by (symmetry; apply Z.eqb_neq; lia).
    now rewrite !andb_false_r.
Qed.

(** A single bit moved to position [i] of a 32-bit word. *)
Lemma testbit_placed (c : bool) (i n : Z) :
  0 <= i -> 0 <= n ->
  Z.testbit (u32 (Z.shiftl (Z.b2z c) i)) n = (n <? 32) && (c && (n =? i)).
Proof.
  intros Hi Hn. unfold u32.
  rewrite Z.testbit_mod_pow2, Z.shiftl_spec, testbit_b2z by lia.
  f_equal. f_equal.
  destruct (Z.eqb_spec (n - i) 0), (Z.eqb_spec n i); trivial; lia.
Qed.

Lemma mask_of_shift (s : nat) :
  (s < 32)%nat -> u32 (Z.shiftl 1 (Z.of_nat s)) = 2 ^ Z.of_nat s.
Proof.
  intros Hs. unfold u32. rewrite Z.shiftl_1_l.
  apply Z.mod_small. split; [apply Z.pow_nonneg; lia|].
  apply Z.pow_lt_mono_r; lia.
Qed.

(** *** The bit-slice equation *)

Lemma interleave_slice_testbit (x : list Z) (s : nat) (n : Z) :
  (s < 32)%nat -> 0 <= n ->
  Z.testbit (interleave_slice x s) n
  = (n <? 32) && Z.testbit (nth (Z.to_nat n) x 0) (Z.of_nat s).
Proof.
  intros Hs Hn. unfold interleave_slice.
  rewrite testbit_or_fold, mask_of_shift by assumption.
  rewrite mask_shift_bit, testbit_b2z by lia.
  apply eq_true_iff_eq. rewrite orb_true_iff, existsb_exists, !andb_true_iff.
  split.
  - intros [[Hb H0]|[i [Hin Hb]]].
    + apply Z.eqb_eq in H0. subst n. split; [reflexivity|exact Hb].
    + apply in_seq in Hin.
      rewrite mask_shift_bit, testbit_placed in Hb by lia.
      rewrite !andb_true_iff in Hb. destruct Hb as [H32 [Hb Hni]].
      apply Z.eqb_eq in Hni. subst n. rewrite Nat2Z.id. auto.
  - intros [H32 Hb]. apply Z.ltb_lt in H32.
    destruct (Z.eq_dec n 0) as [->|Hne].
    + left. split; [exact Hb|reflexivity].
    + right. exists (Z.to_nat n). split; [apply in_seq; lia|].
      rewrite mask_shift_bit, testbit_placed by lia.
      rewrite Hb, Z2Nat.id, Z.eqb_refl by lia.
      replace (n <? 32) with true by (symmetry; apply Z.ltb_lt; lia).
      reflexivity.
Qed.

Lemma interleave_words_nth (x : list Z) (bits s : nat) :
  (s < bits)%nat ->
  nth s (interleave_words_1bit x bits) 0 = interleave_slice x s.
Proof.
  intros Hs. unfold interleave_words_1bit.
  rewrite nth_map_lt with (d' := 0%nat) by (rewrite length_seq; exact Hs).
  rewrite seq_nth by exact Hs. reflexivity.
Qed.

Lemma deinterleave_lane_testbit (ws : list Z) (bits i : nat) (n : Z) :
  0 <= n ->
  Z.testbit (deinterleave_lane ws bits i) n
  = (n <? 32) && (n <? Z.of_nat bits)
    && Z.testbit (nth (Z.to_nat n) ws 0) (Z.of_nat i).
Proof.
  intros Hn. unfold deinterleave_lane.
  rewrite testbit_or_fold, Z.bits_0, orb_false_l.
  apply eq_true_iff_eq. rewrite existsb_exists, !andb_true_iff.
  split.
  - intros [j [Hin Hb]]. apply in_seq in Hin.
    rewrite shift_mask_bit, testbit_placed in Hb by lia.
    rewrite !andb_true_iff in Hb. destruct Hb as [H32 [Hb Hnj]].
    apply Z.eqb_eq in Hnj. subst n. rewrite Nat2Z.id.
    repeat split; trivial. apply Z.ltb_lt. lia.
  - intros [[H32 Hlt] Hb]. apply Z.ltb_lt in Hlt.
    exists (Z.to_nat n). split; [apply in_seq; lia|].
    rewrite shift_mask_bit, testbit_placed by lia.
    rewrite H32, Hb, Z2Nat.id, Z.eqb_refl by lia. reflexivity.
Qed.

Lemma deinterleave_interleave_lane (x : list Z) (bits i : nat) :
  (bits <= 32)%nat -> (i < 32)%nat ->
  deinterleave_lane (interleave_words_1bit x bits) bits i
  = nth i x 0 mod 2 ^ Z.of_nat bits.
Proof.
  intros Hbits Hi. apply Z.bits_inj'. intros n Hn.
  rewrite deinterleave_lane_testbit, Z.testbit_mod_pow2 by lia.
  destruct (Z.ltb_spec n (Z.of_nat bits)) as [Hlt|Hge].
  - rewrite interleave_words_nth, interleave_slice_testbit by lia.
    rewrite Nat2Z.id, Z2Nat.id by lia.
    replace (n <? 32) with true by (symmetry; apply Z.ltb_lt; lia).
    replace (Z.of_nat i <? 32) with true by (symmetry; apply Z.ltb_lt; lia).
    reflexivity.
  - now rewrite andb_false_r.
Qed.

Lemma map_seq_nth (x : list Z) (f : Z -> Z) (g : nat -> Z) :
  (forall i, (i < length x)%nat -> g i = f (nth i x 0)) ->
  map g (seq 0 (length x)) = map f x.
Proof.
  intros H. apply nth_ext with (d := 0) (d' := 0).
  - now rewrite !length_map, length_seq.
  - intros n Hn. rewrite length_map, length_seq in Hn.
    rewrite nth_map_lt with (d' := 0%nat) by (rewrite length_seq; exact Hn).
    rewrite seq_nth by exact Hn. simpl.
    rewrite nth_map_lt with (d' := 0) by exact Hn. apply H, Hn.
Qed.

(** Claim C9, as the code has it.  For every [bits <= 32] and every
    vector [x] of 32 words, [interleave_words_1bit] emits exactly [bits]
    words, word [s] of which has bit [i] equal to bit [s] of [x[i]];
    [deinterleave_words_1bit] then returns every word reduced to its low
    [bits] bits, so an entry with no bit set at position [bits] or above
    comes back unchanged, and any other entry (the exception of the group)
    comes back as its low [bits] bits only. *)
Theorem interleave_roundtrip_low_bits (bits : nat) (x : list Z) :
  (bits <= 32)%nat -> length x = 32%nat ->
  length (interleave_words_1bit x bits) = bits /\
  (forall s i, (s < bits)%nat -> (i < 32)%nat ->
     Z.testbit (nth s (interleave_words_1bit x bits) 0) (Z.of_nat i)
     = Z.testbit (nth i x 0) (Z.of_nat s)) /\
  deinterleave_words_1bit (interleave_words_1bit x bits) bits
  = map (fun v => v mod 2 ^ Z.of_nat bits) x /\
  (forall i, (i < 32)%nat -> 0 <= nth i x 0 < 2 ^ Z.of_nat bits ->
     nth i (deinterleave_words_1bit (interleave_words_1bit x bits) bits) 0
     = nth i x 0).
Proof.
  intros Hbits Hlen.
  assert (Hround : deinterleave_words_1bit (interleave_words_1bit x bits) bits
                   = map (fun v => v mod 2 ^ Z.of_nat bits) x).
  { unfold deinterleave_words_1bit. rewrite <- Hlen.
    apply map_seq_nth. intros i Hi.
    apply deinterleave_interleave_lane; lia. }
  split; [|split; [|split]].
  - unfold interleave_words_1bit. now rewrite length_map, length_seq.
  - intros s i Hs Hi.
    rewrite interleave_words_nth, interleave_slice_testbit by lia.
    rewrite Nat2Z.id.
    replace (Z.of_nat i <? 32) with true by (symmetry; apply Z.ltb_lt; lia).
    reflexivity.
  - exact Hround.
  - intros i Hi Hfit. rewrite Hround.
    rewrite nth_map_lt with (d' := 0) by lia. apply Z.mod_small, Hfit.
Qed.

Lemma interleave_roundtrip_low_bits_witness :
  (3 <= 32)%nat /\ length spike_group = 32%nat /\
  deinterleave_words_1bit (interleave_words_1bit spike_group 3) 3
  = map (fun v => v mod 2 ^ Z.of_nat 3) spike_group.
Proof.
  refine (let Hb := _ in let Hl := eq_refl in
          conj Hb (conj Hl
            (proj1 (proj2 (proj2
               (interleave_roundtrip_low_bits 3 spike_group Hb Hl)))))).
  lia.
Defined.

(** Claim C9, as stated, fails: in [spike_group] the scan picks entry 0 as
    the exception and [bits = 0] for the rest, every other entry fits in 0
    bits, and the round trip returns 32 zeros, not [spike_group]. *)
Lemma interleave_roundtrip_drops_exception :
  max_index (scan_group spike_group) = 0 /\
  Z.to_nat (bit_count (max2_quant (scan_group spike_group))) = 0%nat /\
  Forall (fun v => 0 <= v < 2 ^ 0) (tl spike_group) /\
  deinterleave_words_1bit (interleave_words_1bit spike_group 0) 0
  <> spike_group.
Proof.
  split; [reflexivity|]. split; [reflexivity|]. split.
  - apply Forall_forall. intros v Hin. unfold spike_group in Hin.
    cbn [tl] in Hin. apply repeat_spec in Hin. subst v. lia.
  - vm_compute. discriminate.
Qed.

(** ** Group coder *)

(** *** bit_count *)

Lemma bit_count_zero : bit_count 0 = 0.
Proof. reflexivity. Qed.

Lemma bit_count_pos (x : Z) : 0 < x -> bit_count x = Z.log2 x + 1.
Proof.
  intros Hx. unfold bit_count, clz, sizeof_uint32_t.
  destruct (Z.eqb_spec x 0); lia.
Qed.

Lemma bit_count_bounds (x : Z) :
  0 <= x < 2 ^ 32 ->
  0 <= bit_count x <= 32 /\
  x <= 2 ^ bit_count x - 1 /\
  (0 < x -> 2 ^ (bit_count x - 1) <= x).
Proof.
  intros [H0 H32].
  destruct (Z.eq_dec x 0) as [->|Hne].
  - rewrite bit_count_zero. simpl. lia.
  - assert (Hx : 0 < x) by lia.
    rewrite bit_count_pos by exact Hx.
    pose proof (Z.log2_spec x Hx) as [Hlo Hhi].
    pose proof (Z.log2_nonneg x) as Hnn.
    assert (Z.log2 x < 32) by (apply Z.log2_lt_pow2; lia).
    replace (Z.log2 x + 1 - 1) with (Z.log2 x) by lia.
    unfold Z.succ in Hhi. lia.
Qed.

(** *** The scan of a group *)

Lemma combine_snoc {A B : Type} (l : list A) (r : list B) (a : A) (b : B) :
  length l = length r ->
  combine (l ++ [a]) (r ++ [b]) = combine l r ++ [(a, b)].
Proof.
  revert r; induction l as [|x l IH]; intros [|y r] Hlen;
    simpl in *; try discriminate; [reflexivity|].
  f_equal. apply IH. congruence.
Qed.

Lemma scan_group_snoc (l : list Z) (z : Z) :
  scan_group (l ++ [z]) = update_max z (length l) (scan_group l).
Proof.
  unfold scan_group, scan_from.
  rewrite length_app. simpl length. rewrite seq_app. simpl seq.
  rewrite combine_snoc by (now rewrite length_seq).
  rewrite fold_left_app. reflexivity.
Qed.

Lemma scan_inv_nil :
  scan_inv [] {| max_quant := 0; max2_quant := 0; max_index := 0 |}.
Proof.
  constructor; simpl; try lia; try reflexivity; try congruence;
    intros k Hk; lia.
Qed.

Lemma nth_snoc_old (l : list Z) (z : Z) (k : nat) :
  (k < length l)%nat -> nth k (l ++ [z]) 0 = nth k l 0.
Proof. intros Hk. now apply app_nth1. Qed.

Lemma nth_snoc_new (l : list Z) (z : Z) : nth (length l) (l ++ [z]) 0 = z.
Proof. rewrite app_nth2, Nat.sub_diag by lia. reflexivity. Qed.

Lemma u8_index (n : nat) : (n < 256)%nat -> u8 (Z.of_nat n) = Z.of_nat n.
Proof. intros Hn. unfold u8. apply Z.mod_small. lia. Qed.

Lemma scan_inv_step (l : list Z) (z : Z) (m : maxes) :
  (length l < 256)%nat -> 0 <= z ->
  scan_inv l m -> scan_inv (l ++ [z]) (update_max z (length l) m).
Proof.
  intros Hlen Hz [Hidx Hlt Hat Hmax Hfirst Hmax2 Hord].
  assert (Hnew : forall k, (k < length (l ++ [z]))%nat ->
                           (k < length l)%nat \/ k = length l).
  { intros k. rewrite length_app. simpl. lia. }
  assert (Hempty : l = [] -> max_quant m = 0).
  { intros ->. destruct (Z.to_nat (max_index m)); simpl in Hat; lia. }
  unfold update_max.
  destruct (Z.ltb_spec (max_quant m) z) as [Hgt|Hle].
  - (* a new largest residual *)
    constructor; simpl; rewrite ?u8_index, ?Nat2Z.id by exact Hlen.
    + reflexivity.
    + intros _. rewrite length_app. simpl. lia.
    + apply nth_snoc_new.
    + intros k Hk. destruct (Hnew k Hk) as [Hold| ->].
      * rewrite nth_snoc_old by exact Hold. specialize (Hmax k Hold). lia.
      * rewrite nth_snoc_new. lia.
    + intros k Hk. rewrite nth_snoc_old by exact Hk.
      specialize (Hmax k Hk). lia.
    + intros k Hk Hne. destruct (Hnew k Hk) as [Hold| ->]; [|congruence].
      rewrite nth_snoc_old by exact Hold. apply Hmax, Hold.
    + lia.
  - destruct l as [|z0 l0] eqn:El.
    + (* the first residual is 0: nothing changes *)
      specialize (Hempty eq_refl).
      assert (Hi0 : Z.to_nat (max_index m) = 0%nat).
      { destruct (Z.to_nat (max_index m)) as [|k] eqn:Ek; [reflexivity|].
        specialize (Hfirst 0%nat ltac:(lia)). simpl in Hfirst. lia. }
      assert (Hz0 : z = 0) by lia. subst z.
      replace (max2_quant m <? 0) with false
        by (symmetry; apply Z.ltb_ge; lia).
      constructor; simpl.
      * exact Hidx.
      * intros _. rewrite Hi0. lia.
      * rewrite Hi0. simpl. lia.
      * intros [|k] Hk; simpl; lia.
      * intros k Hk. rewrite Hi0 in Hk. lia.
      * intros [|k] Hk Hne; [rewrite Hi0 in Hne; congruence|simpl in Hk; lia].
      * exact Hord.
    + rewrite <- El in *. assert (Hl : l <> []) by (rewrite El; discriminate).
      specialize (Hlt Hl). clear El z0 l0.
      destruct (Z.ltb_spec (max2_quant m) z) as [Hgt2|Hle2].
      * (* a new second largest residual *)
        constructor; simpl.
        -- exact Hidx.
        -- intros _. rewrite length_app. simpl. lia.
        -- rewrite nth_snoc_old by exact Hlt. exact Hat.
        -- intros k Hk. destruct (Hnew k Hk) as [Hold| ->].
           ++ rewrite nth_snoc_old by exact Hold. apply Hmax, Hold.
           ++ rewrite nth_snoc_new. lia.
        -- intros k Hk. rewrite nth_snoc_old by lia. apply Hfirst, Hk.
        -- intros k Hk Hne. destruct (Hnew k Hk) as [Hold| ->].
           ++ rewrite nth_snoc_old by exact Hold.
              specialize (Hmax2 k Hold Hne). lia.
           ++ rewrite nth_snoc_new. lia.
        -- lia.
      * constructor.
        -- exact Hidx.
        -- intros _. rewrite length_app. simpl. lia.
        -- rewrite nth_snoc_old by exact Hlt. exact Hat.
        -- intros k Hk. destruct (Hnew k Hk) as [Hold| ->].
           ++ rewrite nth_snoc_old by exact Hold. apply Hmax, Hold.
           ++ rewrite nth_snoc_new. lia.
        -- intros k Hk. rewrite nth_snoc_old by lia. apply Hfirst, Hk.
        -- intros k Hk Hne. destruct (Hnew k Hk) as [Hold| ->].
           ++ rewrite nth_snoc_old by exact Hold. apply Hmax2; assumption.
           ++ rewrite nth_snoc_new. lia.
        -- exact Hord.
Qed.

Lemma scan_group_inv (l : list Z) :
  (length l <= 256)%nat -> Forall (fun z => 0 <= z) l ->
  scan_inv l (scan_group l).
Proof.
  induction l as [|z l IH] using rev_ind; intros Hlen Hpos.
  - apply scan_inv_nil.
  - rewrite length_app in Hlen. simpl in Hlen.
    apply Forall_app in Hpos. destruct Hpos as [Hl Hz].
    rewrite scan_group_snoc. apply scan_inv_step.
    + lia.
    + now inversion Hz.
    + apply IH; [lia|exact Hl].
Qed.

Lemma scan_group_max2_range (l : list Z) :
  (length l <= 256)%nat -> Forall (fun z => 0 <= z < 2 ^ 32) l ->
  0 <= max2_quant (scan_group l) < 2 ^ 32.
Proof.
  intros Hlen Hr.
  assert (Hpos : Forall (fun z => 0 <= z) l).
  { eapply Forall_impl; [|exact Hr]. simpl. intros; lia. }
  destruct (scan_group_inv l Hlen Hpos) as [Hidx Hlt Hat Hmax Hfirst Hmax2 Hord].
  split; [lia|].
  destruct l as [|z0 l0] eqn:El.
  - cbn. lia.
  - rewrite <- El in *. assert (Hl : l <> []) by (rewrite El; discriminate).
    specialize (Hlt Hl). rewrite Forall_forall in Hr.
    assert (0 <= max_quant (scan_group l) < 2 ^ 32).
    { rewrite <- Hat. apply Hr, nth_In, Hlt. }
    lia.
Qed.

(** The inner loop of the kernel performs exactly this scan on the
    residuals it computes. *)
Lemma inner_loop_scans (quant_of : Z -> Z) (thread_idx : Z) (i n : nat) :
  forall (j0 : nat) (s : quant_state),
    qs_maxes (fold_left (quantize_step quant_of thread_idx i) (seq j0 n) s)
    = scan_from j0
        (zig_values quant_of thread_idx i (qs_prev_quant s) (seq j0 n))
        (qs_maxes s).
Proof.
  induction n as [|n IH]; intros j0 s; [reflexivity|].
  cbn [seq fold_left zig_values]. rewrite IH.
  unfold scan_from. cbn [length seq combine fold_left fst snd].
  reflexivity.
Qed.

Lemma zigzag_encode_range (x : Z) :
  0 <= x < 2 ^ 32 -> 0 <= zigzag_encode x < 2 ^ 32.
Proof.
  intros Hx. unfold zigzag_encode, u32.
  pose proof (Z.mod_pos_bound (Z.shiftl x 1) (2 ^ 32) ltac:(lia)) as Ha.
  assert (Hb : 0 <= Z.shiftr x 31 < 2 ^ 32).
  { rewrite Z.shiftr_div_pow2 by lia. split.
    - apply Z.div_pos; lia.
    - apply Z.div_lt_upper_bound; lia. }
  set (a := Z.shiftl x 1 mod 2 ^ 32) in *. set (b := Z.shiftr x 31) in *.
  assert (Hnn : 0 <= Z.lxor a b) by (apply Z.lxor_nonneg; lia).
  split; [exact Hnn|].
  destruct (Z.eq_dec (Z.lxor a b) 0) as [->|Hne]; [lia|].
  apply Z.log2_lt_pow2; [lia|].
  pose proof (Z.log2_lxor a b ltac:(lia) ltac:(lia)) as Hl.
  assert (Z.log2 a < 32).
  { destruct (Z.eq_dec a 0) as [->|]; [simpl; lia|].
    apply Z.log2_lt_pow2; lia. }
  assert (Z.log2 b < 32).
  { destruct (Z.eq_dec b 0) as [->|]; [simpl; lia|].
    apply Z.log2_lt_pow2; lia. }
  lia.
Qed.

Lemma zig_values_range (quant_of : Z -> Z) (thread_idx : Z) (i : nat)
    (js : list nat) :
  forall prev,
    Forall (fun z => 0 <= z < 2 ^ 32)
           (zig_values quant_of thread_idx i prev js).
Proof.
  induction js as [|j js IH]; intros prev; simpl; constructor.
  - apply zigzag_encode_range. unfold u32. apply Z.mod_pos_bound. lia.
  - apply IH.
Qed.

Lemma zig_values_length (quant_of : Z -> Z) (thread_idx : Z) (i : nat)
    (js : list nat) :
  forall prev, length (zig_values quant_of thread_idx i prev js) = length js.
Proof.
  induction js as [|j js IH]; intros prev; simpl; [reflexivity|].
  now rewrite IH.
Qed.



(** ** Inverse path *)

(** Claim C7.  In the decoder, whatever the packed words hold and whether
    the group was unpacked or zero-filled, the residual at [max_index] is
    [(high << bits) | ((1 << bits) - 1)] after "Restore the max value"; two
    blocks that differ in their packed words only give the same value. *)
Theorem restore_overwrites_packed
    (mi bt hi words words' qg : list Z) (threadIdx cursor i : nat) :
  let slot := (THREAD_GROUP_COUNT * threadIdx + i)%nat in
  let at_max (w : list Z) :=
    nth (i * QUANT_GROUP_SIZE + Z.to_nat (nth slot mi 0))
        (fst (unpack_group (mkBlock mi bt hi w) threadIdx qg cursor i)) 0 in
  length qg = THREAD_FLOAT_COUNT ->
  (i < THREAD_GROUP_COUNT)%nat ->
  0 <= nth slot mi 0 < Z.of_nat QUANT_GROUP_SIZE ->
  at_max words
  = Z.lor (u32 (Z.shiftl (nth slot hi 0) (nth slot bt 0)))
          (u32 (Z.shiftl 1 (nth slot bt 0) - 1))
  /\ at_max words' = at_max words.
Proof.
  intros slot at_max Hlen Hi Hmax.
  assert (Hat : forall w,
             at_max w = restore_max (nth slot hi 0) (nth slot bt 0)).
  { intros w. unfold at_max, unpack_group. cbn [fst b_max_index b_bits b_high].
    fold slot. apply nth_upd_same.
    assert (Hk : (i * QUANT_GROUP_SIZE + Z.to_nat (nth slot mi 0%Z)
                  < THREAD_FLOAT_COUNT)%nat).
    { unfold THREAD_FLOAT_COUNT, THREAD_GROUP_COUNT, QUANT_GROUP_SIZE in *.
      lia. }
    destruct (nth slot bt 0 =? 0); rewrite length_upd_range, Hlen; exact Hk. }
  split.
  - rewrite Hat. reflexivity.
  - now rewrite !Hat.
Qed.

Lemma restore_overwrites_packed_witness :
  length (repeat 0 THREAD_FLOAT_COUNT) = THREAD_FLOAT_COUNT /\
  (0 < THREAD_GROUP_COUNT)%nat /\
  0 <= nth 0 [5] 0 < Z.of_nat QUANT_GROUP_SIZE /\
  nth 5 (fst (unpack_group (one_group [1; 2; 3]) 0
                           (repeat 0 THREAD_FLOAT_COUNT) 0 0)) 0
  = Z.lor (u32 (Z.shiftl 9 3)) (u32 (Z.shiftl 1 3 - 1)).
Proof.
  assert (Hl : length (repeat 0 THREAD_FLOAT_COUNT) = THREAD_FLOAT_COUNT)
    by reflexivity.
  assert (Hi : (0 < THREAD_GROUP_COUNT)%nat)
    by (unfold THREAD_GROUP_COUNT; lia).
  assert (Hm : 0 <= nth 0 [5] 0 < Z.of_nat QUANT_GROUP_SIZE)
    by (simpl; lia).
  exact (conj Hl (conj Hi (conj Hm
           (proj1 (restore_overwrites_packed [5] [3] [9] [1; 2; 3] []
                     (repeat 0 THREAD_FLOAT_COUNT) 0 0 0 Hl Hi Hm))))).
Defined.

(** ** Decompress driver: termination *)

Section DecoderTermination.

Variable dstate : Type.
Variable step : dstate -> zbuffer -> zbuffer -> zresult * dstate * nat * nat.
Variable budget : dstate -> nat.
Variable B : nat.
Hypothesis Hprogress : Decompressor.coder_progress dstate step budget B.

Lemma block_loop_exits (fuel : nat) :
  forall target zds output input,
    (Decompressor.remaining dstate budget B zds output input < fuel)%nat ->
    exists r, Decompressor.block_loop dstate step fuel target zds output input
              = Some r /\
              forall zds' output' input',
                r = Some (zds', output', input') ->
                zsize input' = zsize input.
Proof.
  destruct Hprogress as [Hbound Hstep].
  induction fuel as [|fuel IH]; intros target zds output input Hfuel;
    [lia|].
  simpl. destruct (Z.of_nat (zpos output) <? target).
  - destruct (step zds output input) as [[[res zds'] opos] ipos] eqn:Estep.
    destruct res as [|[|n]].
    + eexists; split; [reflexivity|]. discriminate.
    + eexists; split; [reflexivity|].
      intros ? ? ? Heq. injection Heq as <- <- <-. reflexivity.
    + destruct (Hstep _ _ _ _ _ _ _ Estep) as [[Hmo Hmi] Hcase].
      destruct (IH target zds' (mkBuf opos (zsize output))
                   (mkBuf ipos (zsize input))) as [r [Hr Hsize]].
      * pose proof (Hbound zds') as Hb'. pose proof (Hbound zds) as Hb.
        unfold Decompressor.remaining in *. cbn [zsize zpos].
        destruct Hcase as [Ho|[Hi|Hs]]; nia.
      * exists r. split; [exact Hr|]. intros ? ? ? Heq.
        apply (Hsize _ _ _ Heq).
  - eexists; split; [reflexivity|].
    intros ? ? ? Heq. injection Heq as <- <- <-. reflexivity.
Qed.

Lemma blocks_loop_exits (e : Decompressor.env dstate) (fuel : nat)
    (block_used_words : list Z) :
  forall i zds input,
    ((block_bytes + zsize input) * S B + B < fuel)%nat ->
    exists r, Decompressor.blocks_loop dstate step fuel e i
                block_used_words zds input = Some r.
Proof.
  destruct Hprogress as [Hbound _].
  induction block_used_words as [|used rest IH]; intros i zds input Hfuel;
    cbn [Decompressor.blocks_loop]; [eexists; reflexivity|].
  destruct (block_loop_exits fuel (Decompressor.block_target used) zds
              (mkBuf 0 block_bytes) input) as [r [Hr Hsize]].
  { pose proof (Hbound zds). unfold Decompressor.remaining. cbn [zsize zpos]. nia. }
  rewrite Hr. destruct r as [[[zds' output'] input']|];
    [|eexists; reflexivity].
  destruct (negb (Decompressor.cudaMemcpy_block_ok dstate e i));
    [eexists; reflexivity|].
  apply IH. rewrite (Hsize _ _ _ eq_refl). exact Hfuel.
Qed.

Lemma Decompress_exits (e : Decompressor.env dstate) (data : list Z) :
  forall fuel,
    ((block_bytes + length data) * S B + B < fuel)%nat ->
    exists r, snd (Decompressor.Decompress dstate step fuel e data) = Some r.
Proof.
  intros fuel Hfuel. unfold Decompressor.Decompress. cbv zeta.
  match goal with
  | |- context [Decompressor.blocks_loop _ _ _ _ ?i ?w ?z ?inp] =>
      destruct (blocks_loop_exits e fuel w i z inp) as [r Hr];
      [exact Hfuel|rewrite Hr]
  end.
  destruct r;
    repeat match goal with
           | |- context [if ?c then _ else _] => destruct c; cbn [snd]
           end; eexists; reflexivity.
Qed.

End DecoderTermination.


Lemma byte_copier_progress :
  Decompressor.coder_progress unit byte_copier (fun _ => 0%nat) 0.
Proof.
  split; [intros; lia|].
  intros zds output input n zds' opos ipos. unfold byte_copier.
  destruct (Nat.leb_spec (zsize input) (zpos input)); [discriminate|].
  destruct (Nat.leb_spec (zsize output) (zpos output)); [discriminate|].
  intros Heq. injection Heq as _ _ <- <-. lia.
Qed.


(** The progress rule is what ends the loop: with a decoder that keeps
    asking for more and moves nothing, no amount of fuel leaves it. *)
Lemma stalled_coder_never_exits (fuel : nat) (target : Z)
    (output input : zbuffer) :
  Z.of_nat (zpos output) < target ->
  Decompressor.block_loop unit stalled_coder fuel target tt output input
  = None.
Proof.
  intros Hlt. revert output input Hlt.
  induction fuel as [|fuel IH]; intros [opos osize] input Hlt;
    cbn [Decompressor.block_loop zpos zsize] in *;
    (replace (Z.of_nat opos <? target) with true
       by (symmetry; apply Z.ltb_lt; exact Hlt)); [reflexivity|].
  unfold stalled_coder at 1. cbn [zpos zsize].
  apply IH. exact Hlt.
Qed.

(** ** Worker/block assignment *)

Lemma compress_float_index_group (thread_idx : Z) (i j : nat) :
  compress_float_index thread_idx i j = compress_float_index thread_idx 0 j.
Proof. reflexivity. Qed.

Lemma decompress_float_index_spec (thread_idx : Z) (i j : nat) :
  decompress_float_index thread_idx i j
  = thread_idx * 128 + Z.of_nat i * 32 + Z.of_nat j.
Proof. reflexivity. Qed.

(** Claim C2 fails on the code.  For thread 0, group 1, position 0 the
    compression kernel quantizes the float at index 0, not the one at index
    [0*128 + 1*32 + 0 = 32]: its index expression leaves the group number
    out, so all four groups of a thread read the first 32 floats of the
    thread.  The decompression kernel does use [i * QUANT_GROUP_SIZE]. *)
Theorem compress_ignores_group_index :
  compress_float_index 0 1 0 = 0 /\
  decompress_float_index 0 1 0 = 32 /\
  zig_values ramp 0 1 31 (seq 0 QUANT_GROUP_SIZE)
  = zigzag_encode (u32 (s32 (ramp 0 - 31))) :: repeat 2 31.
Proof. repeat split; vm_compute; reflexivity. Qed.

(** ** Block coder *)

Lemma add_used_words_eight (used bits : Z) :
  0 <= used < 2 ^ 31 -> 0 <= bits <= 32 ->
  add_used_words used bits = used + 8 * bits.
Proof.
  intros Hu Hb. unfold add_used_words, u32, sizeof_uint32_t, QUANT_GROUP_SIZE.
  change (Z.of_nat 32) with 32.
  rewrite (Z.mod_small (bits * 32)) by lia.
  replace (bits * 32) with ((bits * 8) * 4) by lia.
  rewrite Z.div_mul by lia.
  rewrite Z.mod_small by lia. lia.
Qed.

(** Claim C3 fails on the code.  On the ramp every group of thread 0 has
    [bits = 2]; the thread counts [used_words = 64], not [2+2+2+2 = 8], and
    the block records 16384 words where its 1024 groups have 2048 bits in
    all: each group adds [bits * QUANT_GROUP_SIZE / sizeof(uint32_t)],
    which is [8 * bits]. *)
Theorem used_words_is_eight_times_bits :
  let r := SZplus_compress_kernel_f32 ramp 0 empty_block in
  let loc := nth 0 (r_locals r) initial_locals in
  group_bits loc = [2; 2; 2; 2] /\
  used_words loc = 64 /\
  spec_used_words (group_bits loc) = 8 /\
  r_block_used_words r = 16384 /\
  spec_block_used_words (b_bits (r_block r)) = 2048.
Proof. vm_compute. repeat split; reflexivity. Qed.

(** Claim C4 fails on the code.  On the ramp the groups before group 0 of
    thread 1 hold 8 packed words; the encoder writes that group at word 64
    (its exclusive sum runs over [8 * bits]) and the decoder reads it from
    word 0 (its cursor starts at the packed region for every thread). *)
Theorem group_offsets_disagree :
  let r := SZplus_compress_kernel_f32 ramp 0 empty_block in
  spec_group_offset (b_bits (r_block r)) 1 0 = 8 /\
  written_group_offset r 1 0 = 64%nat /\
  decoder_group_offset (r_block r) 1 0 = 0%nat.
Proof. vm_compute. repeat split; reflexivity. Qed.

(** ** Round trip *)

(** Claim C1 fails on the code.  For [F[i] = i], [i < 32768], and
    [epsilon = 1.0f], thread 0 decodes [-2] at index 1 where the input is
    [1], an error of 3. *)
Theorem roundtrip_fails_on_ramp :
  let blk := r_block (SZplus_compress_kernel_f32 ramp 0 empty_block) in
  let out := decompress_thread blk 0 0 (repeat 0 THREAD_FLOAT_COUNT) in
  ramp 1 = 1 /\ nth 1 out 0 = -2 /\ 1 < Z.abs (nth 1 out 0 - ramp 1).
Proof. vm_compute. repeat split; reflexivity. Qed.

(** ** Compress driver *)

(** Claim C5 fails on the code.  When [cudaMalloc] or [cudaMallocManaged]
    fails the driver executes [return -1;], which converts to [true]. *)
Theorem Compress_malloc_failure_returns_true
    (cstate : Type)
    (ZSTD_compressStream :
       cstate -> zbuffer -> zbuffer -> zresult * cstate * nat * nat)
    (ZSTD_endStream : cstate -> zbuffer -> zresult * cstate * nat)
    (fuel : nat) (managed create init : bool) (zcs : cstate)
    (quant_of : Z -> Z) (float_count : Z) :
  Compressor.Compress cstate ZSTD_compressStream ZSTD_endStream fuel
    (Compressor.mkEnv cstate false managed create init zcs)
    quant_of float_count = Some true /\
  Compressor.Compress cstate ZSTD_compressStream ZSTD_endStream fuel
    (Compressor.mkEnv cstate true false create init zcs)
    quant_of float_count = Some true.
Proof. split; reflexivity. Qed.

(** ** Decompress driver: header *)

Lemma Decompress_short_input (dstate : Type)
    (step : dstate -> zbuffer -> zbuffer -> zresult * dstate * nat * nat)
    (fuel : nat) (e : Decompressor.env dstate) (data : list Z) :
  Z.of_nat (length data) < kHeaderBytes ->
  Decompressor.Decompress dstate step fuel e data
  = ([], Some (Returned false)).
Proof.
  intros Hlt. unfold Decompressor.Decompress.
  replace (Z.of_nat (length data) <? kHeaderBytes) with true
    by (symmetry; apply Z.ltb_lt; exact Hlt).
  reflexivity.
Qed.

Lemma Decompress_bad_magic (dstate : Type)
    (step : dstate -> zbuffer -> zbuffer -> zresult * dstate * nat * nat)
    (fuel : nat) (e : Decompressor.env dstate) (data : list Z) :
  kHeaderBytes <= Z.of_nat (length data) ->
  read_uint32_le data 0 <> kMagic ->
  Decompressor.Decompress dstate step fuel e data
  = (read_uint32_le_indices 0, Some (Returned false)).
Proof.
  intros Hge Hne. unfold Decompressor.Decompress.
  replace (Z.of_nat (length data) <? kHeaderBytes) with false
    by (symmetry; apply Z.ltb_ge; exact Hge).
  replace (read_uint32_le data 0 =? kMagic) with false
    by (symmetry; apply Z.eqb_neq; exact Hne).
  reflexivity.
Qed.

(** Claim C6 fails on the code.  Given the 12 bytes of a header with the
    right magic and [float_count = 1], the driver goes on to read the word
    count of block 0 at bytes 12 to 15, none of which exists. *)
Theorem Decompress_reads_past_end (dstate : Type)
    (step : dstate -> zbuffer -> zbuffer -> zresult * dstate * nat * nat)
    (fuel : nat) (e : Decompressor.env dstate) :
  length bare_header = 12%nat /\
  fst (Decompressor.Decompress dstate step fuel e bare_header)
  = [0; 1; 2; 3; 4; 5; 6; 7; 8; 9; 10; 11; 12; 13; 14; 15]%nat.
Proof. split; reflexivity. Qed.

(** * Further properties of the code *)

(** ** Serialization *)

Lemma byte_of_word_testbit (v k n : Z) :
  0 <= k -> 0 <= n ->
  Z.testbit (Z.shiftl (u8 (Z.shiftr v k)) k) n
  = (k <=? n) && (n <? k + 8) && Z.testbit v n.
Proof.
  intros Hk Hn. rewrite Z.shiftl_spec by lia.
  destruct (Z.leb_spec k n) as [Hle|Hlt].
  - unfold u8. rewrite Z.testbit_mod_pow2, Z.shiftr_spec by lia.
    replace (n - k + k) with n by lia.
    replace (n - k <? 8) with (n <? k + 8); [reflexivity|].
    destruct (Z.ltb_spec n (k + 8)), (Z.ltb_spec (n - k) 8); trivial; lia.
  - rewrite Z.testbit_neg_r by lia. reflexivity.
Qed.

(** A word written with [write_uint32_le] anywhere in a buffer reads back
    with [read_uint32_le] as its value modulo 2^32; the four bytes written
    are bytes. *)
Theorem read_write_uint32_le (pre post : list Z) (value : Z) :
  read_uint32_le (pre ++ write_uint32_le value ++ post) (length pre)
  = u32 value /\
  length (write_uint32_le value) = 4%nat /\
  Forall (fun b => 0 <= b < 256) (write_uint32_le value).
Proof.
  split; [|split].
  - unfold read_uint32_le.
    replace (length pre) with (length pre + 0)%nat at 1 by lia.
    rewrite !app_nth2_plus. cbn [write_uint32_le app nth].
    apply Z.bits_inj'. intros n Hn.
    rewrite !Z.lor_spec.
    rewrite <- (Z.shiftl_0_r (u8 value)).
    rewrite <- (Z.shiftr_0_r value) at 1.
    rewrite !byte_of_word_testbit by lia.
    unfold u32. rewrite Z.testbit_mod_pow2 by lia.
    destruct (Z.testbit value n); rewrite ?andb_false_r, ?andb_true_r;
      [|reflexivity].
    destruct (Z.leb_spec 0 n), (Z.leb_spec 8 n), (Z.leb_spec 16 n),
      (Z.leb_spec 24 n), (Z.ltb_spec n (0 + 8)), (Z.ltb_spec n (8 + 8)),
      (Z.ltb_spec n (16 + 8)), (Z.ltb_spec n (24 + 8)), (Z.ltb_spec n 32);
      simpl; trivial; lia.
  - reflexivity.
  - unfold write_uint32_le, u8.
    repeat constructor; apply Z.mod_pos_bound; lia.
Qed.

(** ** Zigzag *)

Lemma land_even_1 (a : Z) : Z.land (2 * a) 1 = 0.
Proof.
  change 1 with (Z.ones 1). rewrite Z.land_ones by lia.
  change (2 ^ 1) with 2. rewrite Z.mul_comm. apply Z.mod_mul. lia.
Qed.

Lemma land_odd_1 (a : Z) : Z.land (2 * a + 1) 1 = 1.
Proof.
  change 1 with (Z.ones 1) at 2. rewrite Z.land_ones by lia.
  change (2 ^ 1) with 2. rewrite Z.add_comm, Z.mul_comm, Z.mod_add by lia.
  reflexivity.
Qed.

Lemma lxor_all_ones (h : Z) :
  0 <= h < 2 ^ 32 -> Z.lxor h (2 ^ 32 - 1) = 2 ^ 32 - 1 - h.
Proof.
  intros Hh. change (2 ^ 32 - 1) with (Z.ones 32).
  assert (Hlog : Z.log2 h < 32).
  { destruct (Z.eq_dec h 0) as [->|]; [simpl; lia|].
    apply Z.log2_lt_pow2; lia. }
  rewrite <- Z.ldiff_ones_l_low by lia.
  symmetry. apply Z.sub_nocarry_ldiff.
  apply Z.ldiff_ones_r_low; lia.
Qed.

Lemma zigzag_decode_even (q : Z) :
  0 <= q < 2 ^ 31 -> zigzag_decode (2 * q) = q.
Proof.
  intros Hq. unfold zigzag_decode.
  rewrite land_even_1. change (u32 (- 0)) with 0. rewrite Z.lxor_0_r.
  rewrite Z.shiftr_div_pow2 by lia. change (2 ^ 1) with 2.
  rewrite Z.mul_comm, Z.div_mul by lia.
  unfold s32. rewrite Z.mod_small by lia. lia.
Qed.

Lemma zigzag_decode_odd (q : Z) :
  0 <= q < 2 ^ 31 -> zigzag_decode (2 * q + 1) = - q - 1.
Proof.
  intros Hq. unfold zigzag_decode.
  rewrite land_odd_1. change (u32 (- (1))) with (2 ^ 32 - 1).
  rewrite Z.shiftr_div_pow2 by lia. change (2 ^ 1) with 2.
  rewrite Z.add_comm, Z.mul_comm, Z.div_add by lia.
  change (1 / 2) with 0. rewrite Z.add_0_l.
  rewrite lxor_all_ones by lia.
  unfold s32.
  replace (2 ^ 32 - 1 - q + 2 ^ 31)
    with ((2 ^ 31 - 1 - q) + 1 * 2 ^ 32) by lia.
  rewrite Z.mod_add, Z.mod_small by lia. lia.
Qed.

(** [zigzag_decode] sends an even word [x] to [x / 2] and an odd word to
    [-(x / 2) - 1]: it inverts the zigzag map on signed values. *)
Theorem zigzag_decode_parity (x : Z) :
  0 <= x < 2 ^ 32 ->
  zigzag_decode x = (if Z.even x then x / 2 else - (x / 2) - 1) /\
  (forall n, - 2 ^ 31 <= n < 2 ^ 31 -> zigzag_decode (signed_zigzag n) = n).
Proof.
  intros Hx. split.
  - pose proof (Z.div_mod x 2 ltac:(lia)) as Hdm.
    pose proof (Z.mod_pos_bound x 2 ltac:(lia)) as Hm.
    assert (Hq : 0 <= x / 2 < 2 ^ 31)
      by (split; [apply Z.div_pos; lia|apply Z.div_lt_upper_bound; lia]).
    destruct (Z.eq_dec (x mod 2) 0) as [H0|H1].
    + assert (Hx2 : x = 2 * (x / 2)) by lia.
      replace (Z.even x) with true
        by (rewrite Hx2, Z.even_mul; reflexivity).
      rewrite Hx2 at 1. apply zigzag_decode_even, Hq.
    + assert (Hx2 : x = 2 * (x / 2) + 1) by lia.
      replace (Z.even x) with false
        by (rewrite Hx2, Z.add_comm, Z.even_add_mul_2; reflexivity).
      rewrite Hx2 at 1. apply zigzag_decode_odd, Hq.
  - intros n Hn. unfold signed_zigzag.
    destruct (Z.ltb_spec n 0) as [Hneg|Hpos].
    + replace (- 2 * n - 1) with (2 * (- n - 1) + 1) by lia.
      rewrite zigzag_decode_odd by lia. lia.
    + apply zigzag_decode_even. lia.
Qed.

(** For a delta that is not negative [zigzag_encode] gives twice the
    delta, and [zigzag_decode] gives the delta back. *)
Theorem zigzag_roundtrip_nonnegative (delta : Z) :
  0 <= delta < 2 ^ 31 ->
  zigzag_encode (u32 delta) = 2 * delta /\
  zigzag_decode (zigzag_encode (u32 delta)) = delta.
Proof.
  intros Hd.
  assert (He : zigzag_encode (u32 delta) = 2 * delta).
  { unfold zigzag_encode, u32. rewrite (Z.mod_small delta) by lia.
    rewrite Z.shiftl_mul_pow2, Z.shiftr_div_pow2 by lia.
    rewrite (Z.div_small delta) by lia. rewrite Z.lxor_0_r.
    rewrite Z.mod_small by lia. lia. }
  split; [exact He|]. rewrite He. apply zigzag_decode_even. exact Hd.
Qed.

(** For a negative delta [zigzag_encode], whose right shift is logical,
    gives [2^32 + 2 * delta + 1] where the zigzag map has
    [- 2 * delta - 1], and [zigzag_decode] then returns
    [- 2^31 - 1 - delta], which is never the delta. *)
Theorem zigzag_negative_delta (delta : Z) :
  - 2 ^ 31 <= delta < 0 ->
  zigzag_encode (u32 delta) = 2 ^ 32 + 2 * delta + 1 /\
  zigzag_encode (u32 delta) <> signed_zigzag delta /\
  zigzag_decode (zigzag_encode (u32 delta)) = - 2 ^ 31 - 1 - delta /\
  zigzag_decode (zigzag_encode (u32 delta)) <> delta.
Proof.
  intros Hd.
  assert (Hu : u32 delta = delta + 2 ^ 32).
  { unfold u32. replace delta with ((delta + 2 ^ 32) + (-1) * 2 ^ 32) at 1
      by lia. rewrite Z.mod_add, Z.mod_small by lia. reflexivity. }
  assert (He : zigzag_encode (u32 delta) = 2 ^ 32 + 2 * delta + 1).
  { unfold zigzag_encode. rewrite Hu. unfold u32.
    rewrite Z.shiftl_mul_pow2, Z.shiftr_div_pow2 by lia.
    replace ((delta + 2 ^ 32) * 2 ^ 1)
      with ((2 ^ 32 + 2 * delta) + 1 * 2 ^ 32) by lia.
    rewrite Z.mod_add, Z.mod_small by lia.
    replace ((delta + 2 ^ 32) / 2 ^ 31) with 1.
    2:{ apply Z.div_unique with (r := delta + 2 ^ 31); lia. }
    replace (2 ^ 32 + 2 * delta) with (2 * (2 ^ 31 + delta)) by lia.
    rewrite <- Z.add_nocarry_lxor by apply land_even_1. lia. }
  assert (Hdec : zigzag_decode (zigzag_encode (u32 delta))
                 = - 2 ^ 31 - 1 - delta).
  { rewrite He.
    replace (2 ^ 32 + 2 * delta + 1) with (2 * (2 ^ 31 + delta) + 1) by lia.
    rewrite zigzag_decode_odd by lia. lia. }
  repeat split.
  - exact He.
  - rewrite He. unfold signed_zigzag.
    replace (delta <? 0) with true by (symmetry; apply Z.ltb_lt; lia). lia.
  - exact Hdec.
  - rewrite Hdec. lia.
Qed.

(** ** Bit width and exception *)

(** [bit_count x] is the least width that holds [x]. *)
Theorem bit_count_least_width (x w : Z) :
  0 <= x < 2 ^ 32 -> 0 <= w ->
  (x < 2 ^ w <-> bit_count x <= w).
Proof.
  intros Hx Hw.
  destruct (Z.eq_dec x 0) as [->|Hne].
  - change (bit_count 0) with 0. split; intros _; [lia|].
    apply Z.pow_pos_nonneg; lia.
  - assert (Hpos : 0 < x) by lia.
    assert (Hbc : bit_count x = Z.log2 x + 1).
    { unfold bit_count, clz, sizeof_uint32_t.
      destruct (Z.eqb_spec x 0); lia. }
    pose proof (Z.log2_spec x Hpos) as [Hlo Hhi].
    pose proof (Z.log2_nonneg x) as Hnn.
    rewrite Hbc. split.
    + intros Hlt.
      assert (Z.log2 x < w) by (apply Z.log2_lt_pow2; lia). lia.
    + intros Hle. apply Z.lt_le_trans with (2 ^ Z.succ (Z.log2 x));
        [exact Hhi|]. apply Z.pow_le_mono_r; lia.
Qed.

(** The decoder rebuilds an exception [m] from [high = m >> bits] with its
    low [bits] bits set to one: the result exceeds [m] by
    [2^bits - 1 - m mod 2^bits], and is [m] only when those bits of [m] are
    all ones. *)
Theorem restore_max_of_high (m bits : Z) :
  0 <= m < 2 ^ 32 -> 0 <= bits <= 32 ->
  restore_max (Z.shiftr m bits) bits = m + (2 ^ bits - 1 - m mod 2 ^ bits) /\
  (restore_max (Z.shiftr m bits) bits = m <-> m mod 2 ^ bits = 2 ^ bits - 1).
Proof.
  intros Hm Hb.
  assert (Hp : 0 < 2 ^ bits) by (apply Z.pow_pos_nonneg; lia).
  assert (Hp32 : 2 ^ bits <= 2 ^ 32) by (apply Z.pow_le_mono_r; lia).
  pose proof (Z.div_mod m (2 ^ bits) ltac:(lia)) as Hdm.
  pose proof (Z.mod_pos_bound m (2 ^ bits) Hp) as Hmod.
  assert (Hq : 0 <= m / 2 ^ bits) by (apply Z.div_pos; lia).
  assert (Hr : restore_max (Z.shiftr m bits) bits
               = m + (2 ^ bits - 1 - m mod 2 ^ bits)).
  { unfold restore_max, u32.
    rewrite Z.shiftr_div_pow2, !Z.shiftl_mul_pow2 by lia.
    rewrite Z.mul_1_l.
    rewrite (Z.mod_small (m / 2 ^ bits * 2 ^ bits)) by nia.
    rewrite (Z.mod_small (2 ^ bits - 1)) by lia.
    rewrite <- Z.lxor_lor, <- Z.add_nocarry_lxor.
    - nia.
    - change (2 ^ bits - 1) with (Z.pred (2 ^ bits)).
      rewrite <- Z.ones_equiv, Z.land_ones by lia. apply Z.mod_mul. lia.
    - change (2 ^ bits - 1) with (Z.pred (2 ^ bits)).
      rewrite <- Z.ones_equiv, Z.land_ones by lia. apply Z.mod_mul. lia. }
  split; [exact Hr|]. rewrite Hr. lia.
Qed.

(** ** Decompress driver: what is read and what [true] means *)

Lemma block_words_reads (n : nat) :
  forall a,
    flat_map (fun i => read_uint32_le_indices (Z.to_nat kHeaderBytes + i * 4))
             (seq a n)
    = seq (12 + 4 * a) (4 * n).
Proof.
  induction n as [|n IH]; intros a; [reflexivity|].
  cbn [seq flat_map]. rewrite IH.
  replace (4 * S n)%nat with (S (S (S (S (4 * n))))) by lia.
  change (Z.to_nat kHeaderBytes) with 12%nat.
  unfold read_uint32_le_indices. cbn [app seq].
  replace (12 + a * 4)%nat with (12 + 4 * a)%nat by lia.
  replace (12 + 4 * a + 1)%nat with (S (12 + 4 * a)) by lia.
  replace (12 + 4 * a + 2)%nat with (S (S (12 + 4 * a))) by lia.
  replace (12 + 4 * a + 3)%nat with (S (S (S (12 + 4 * a)))) by lia.
  replace (12 + 4 * S a)%nat with (S (S (S (S (12 + 4 * a))))) by lia.
  reflexivity.
Qed.

Lemma header_reads_seq (n : nat) :
  Decompressor.header_reads n = seq 0 (12 + 4 * n).
Proof.
  unfold Decompressor.header_reads. rewrite block_words_reads.
  replace (12 + 4 * n)%nat with (12 + 4 * n)%nat by lia.
  change (read_uint32_le_indices 0 ++ read_uint32_le_indices 4
          ++ read_uint32_le_indices 8) with (seq 0 12).
  rewrite !app_assoc.
  change ((read_uint32_le_indices 0 ++ read_uint32_le_indices 4)
          ++ read_uint32_le_indices 8) with (seq 0 12).
  rewrite (seq_app 12 (4 * n) 0). reflexivity.
Qed.


Lemma blocks_loop_true (dstate : Type)
    (step : dstate -> zbuffer -> zbuffer -> zresult * dstate * nat * nat)
    (fuel : nat) (e : Decompressor.env dstate) (block_used_words : list Z) :
  forall i zds input,
    Decompressor.blocks_loop dstate step fuel e i block_used_words zds input
    = Some true ->
    forall k, (k < length block_used_words)%nat ->
              Decompressor.cudaMemcpy_block_ok dstate e (i + k) = true.
Proof.
  induction block_used_words as [|used rest IH]; intros i zds input Hrun k Hk;
    [simpl in Hk; lia|].
  cbn [Decompressor.blocks_loop] in Hrun.
  destruct (Decompressor.block_loop dstate step fuel
              (Decompressor.block_target used) zds
              (mkBuf 0 block_bytes) input) as [[[[zds' output'] input']|]|];
    try discriminate.
  destruct (Decompressor.cudaMemcpy_block_ok dstate e i) eqn:Hcopy;
    cbn [negb] in Hrun; [|discriminate].
  destruct k as [|k].
  - now rewrite Nat.add_0_r.
  - replace (i + S k)%nat with (S i + k)%nat by lia.
    apply (IH (S i) zds' input' Hrun). simpl in Hk. lia.
Qed.


(** ** Compression kernel: what one thread writes *)

Lemma scan_from_start (zigs : list Z) :
  scan_from 0 zigs {| max_quant := 0; max2_quant := 0; max_index := 0 |}
  = scan_group zigs.
Proof. reflexivity. Qed.

(** The thread-local result of one group does not depend on the block,
    and the block changes in one slot of each table only. *)
Lemma compress_group_effect (quant_of : Z -> Z) (thread_idx : Z)
    (threadIdx : nat) (loc : thread_locals) (blk : block_data) (i : nat) :
  exists bits m high,
    0 <= bits <= 32 /\
    compress_group quant_of thread_idx threadIdx (loc, blk) i
    = ({| quant_group :=
            qs_quant_group
              (fold_left (quantize_step quant_of thread_idx i)
                 (seq 0 QUANT_GROUP_SIZE)
                 (mkQuant (prev_quant loc) (quant_group loc)
                          (mkMaxes 0 0 0)));
          group_bits := upd (group_bits loc) i bits;
          used_words := add_used_words (used_words loc) bits;
          prev_quant :=
            qs_prev_quant
              (fold_left (quantize_step quant_of thread_idx i)
                 (seq 0 QUANT_GROUP_SIZE)
                 (mkQuant (prev_quant loc) (quant_group loc)
                          (mkMaxes 0 0 0))) |},
       {| b_max_index :=
            upd (b_max_index blk) (THREAD_GROUP_COUNT * threadIdx + i) m;
          b_bits := upd (b_bits blk) (THREAD_GROUP_COUNT * threadIdx + i) bits;
          b_high := upd (b_high blk) (THREAD_GROUP_COUNT * threadIdx + i) high;
          b_words := b_words blk |}).
Proof.
  unfold compress_group.
  set (s := fold_left (quantize_step quant_of thread_idx i) _ _).
  assert (Hr : 0 <= bit_count (max2_quant (qs_maxes s)) <= 32).
  { subst s. rewrite inner_loop_scans. cbn [qs_maxes qs_prev_quant].
    rewrite scan_from_start.
    apply bit_count_bounds, scan_group_max2_range.
    - rewrite zig_values_length, length_seq. unfold QUANT_GROUP_SIZE. lia.
    - apply zig_values_range. }
  exists (bit_count (max2_quant (qs_maxes s))),
         (u8 (max_index (qs_maxes s))),
         (Z.shiftr (max_quant (qs_maxes s))
                   (bit_count (max2_quant (qs_maxes s)))).
  split; [exact Hr|].
  replace (u8 (bit_count (max2_quant (qs_maxes s))))
    with (bit_count (max2_quant (qs_maxes s)))
    by (unfold u8; rewrite Z.mod_small; lia).
  reflexivity.
Qed.

Lemma sum_bits_upd (gb : list Z) (k : nat) (v : Z) :
  (k < length gb)%nat ->
  sum_bits (upd gb k v) = sum_bits gb - nth k gb 0 + v.
Proof.
  revert k; induction gb as [|h t IH]; intros [|k] Hk; simpl in *; try lia.
  rewrite IH by lia. lia.
Qed.

Lemma sum_bits_bound (gb : list Z) :
  Forall (fun b => 0 <= b <= 32) gb ->
  0 <= sum_bits gb <= 32 * Z.of_nat (length gb).
Proof.
  induction 1 as [|h t Hh Ht IH]; simpl length; simpl sum_bits; lia.
Qed.

Lemma Forall_upd (P : Z -> Prop) (gb : list Z) (k : nat) (v : Z) :
  P v -> Forall P gb -> Forall P (upd gb k v).
Proof.
  intros Hv Hall. revert k.
  induction Hall as [|h t Hh Ht IH]; intros [|k]; simpl; constructor; auto.
Qed.

Lemma counted_step (quant_of : Z -> Z) (thread_idx : Z) (threadIdx k : nat)
    (loc : thread_locals) (blk : block_data) :
  (k < THREAD_GROUP_COUNT)%nat -> counted k loc ->
  counted (S k)
    (fst (compress_group quant_of thread_idx threadIdx (loc, blk) k)).
Proof.
  intros Hk [Hlen Hrange Hrest Hwords].
  destruct (compress_group_effect quant_of thread_idx threadIdx loc blk k)
    as [bits [m [high [Hbits ->]]]].
  cbn [fst]. pose proof (sum_bits_bound _ Hrange) as Hsum.
  rewrite Hlen in Hsum. unfold THREAD_GROUP_COUNT in *.
  constructor; cbn [group_bits used_words].
  - now rewrite length_upd.
  - apply Forall_upd; assumption.
  - intros i Hi. rewrite nth_upd_other by lia. apply Hrest. lia.
  - rewrite add_used_words_eight by lia.
    rewrite sum_bits_upd, (Hrest k) by lia. lia.
Qed.

Lemma compress_groups_counted (quant_of : Z -> Z) (thread_idx : Z)
    (threadIdx n : nat) :
  forall k loc blk,
    (k + n <= THREAD_GROUP_COUNT)%nat -> counted k loc ->
    counted (k + n)
      (fst (fold_left (compress_group quant_of thread_idx threadIdx)
                      (seq k n) (loc, blk))).
Proof.
  induction n as [|n IH]; intros k loc blk Hk Hc.
  - now rewrite Nat.add_0_r.
  - cbn [seq fold_left].
    destruct (compress_group quant_of thread_idx threadIdx (loc, blk) k)
      as [loc' blk'] eqn:Hstep.
    replace (k + S n)%nat with (S k + n)%nat by lia.
    apply IH; [lia|].
    replace loc' with
      (fst (compress_group quant_of thread_idx threadIdx (loc, blk) k))
      by now rewrite Hstep.
    apply counted_step; [lia|exact Hc].
Qed.

(** For every input and every thread, the bit widths of the four groups
    lie in [0, 32] and the thread counts eight words for each bit of
    width: [used_words = 8 * (bits_0 + bits_1 + bits_2 + bits_3)]. *)
Theorem thread_used_words_law (quant_of : Z -> Z) (thread_idx : Z)
    (threadIdx : nat) (blk : block_data) :
  let loc := fst (compress_params quant_of thread_idx threadIdx blk) in
  length (group_bits loc) = THREAD_GROUP_COUNT /\
  Forall (fun b => 0 <= b <= 32) (group_bits loc) /\
  used_words loc = 8 * sum_bits (group_bits loc).
Proof.
  pose proof (compress_groups_counted quant_of thread_idx threadIdx
                THREAD_GROUP_COUNT 0 initial_locals blk) as H.
  destruct H as [Hlen Hrange _ Hwords].
  - unfold THREAD_GROUP_COUNT. lia.
  - constructor; try reflexivity.
    + unfold initial_locals, THREAD_GROUP_COUNT. cbn.
      repeat constructor; lia.
    + intros i _. unfold initial_locals, THREAD_GROUP_COUNT. cbn.
      destruct i as [|[|[|[|[|i]]]]]; reflexivity.
  - repeat split; assumption.
Qed.

Lemma compress_groups_confined (quant_of : Z -> Z) (thread_idx : Z)
    (threadIdx : nat) (groups : list nat) :
  forall loc blk slot,
    Forall (fun i => slot <> (THREAD_GROUP_COUNT * threadIdx + i)%nat) groups ->
    let blk' := snd (fold_left (compress_group quant_of thread_idx threadIdx)
                               groups (loc, blk)) in
    nth slot (b_max_index blk') 0 = nth slot (b_max_index blk) 0 /\
    nth slot (b_bits blk') 0 = nth slot (b_bits blk) 0 /\
    nth slot (b_high blk') 0 = nth slot (b_high blk) 0 /\
    b_words blk' = b_words blk /\
    length (b_max_index blk') = length (b_max_index blk) /\
    length (b_bits blk') = length (b_bits blk) /\
    length (b_high blk') = length (b_high blk).
Proof.
  induction groups as [|i groups IH]; intros loc blk slot Hslots;
    [cbn; repeat split; reflexivity|].
  cbn [fold_left]. inversion Hslots as [|? ? Hi Hrest]; subst.
  destruct (compress_group_effect quant_of thread_idx threadIdx loc blk i)
    as [bits [m [high [_ ->]]]].
  match goal with
  | |- context [fold_left _ groups (?l, ?b)] =>
      destruct (IH l b slot Hrest) as [H1 [H2 [H3 [H4 [H5 [H6 H7]]]]]]
  end.
  cbv zeta. rewrite H1, H2, H3, H4, H5, H6, H7.
  cbn [b_max_index b_bits b_high b_words].
  rewrite !nth_upd_other, !length_upd by exact Hi.
  repeat split; reflexivity.
Qed.

(** A thread changes the parameter tables in its own four slots
    [4 * threadIdx .. 4 * threadIdx + 3] only, whatever the input, and
    does not touch the packed words before the barrier. *)
Theorem compress_params_confined (quant_of : Z -> Z) (thread_idx : Z)
    (threadIdx : nat) (blk : block_data) (slot : nat) :
  (slot < THREAD_GROUP_COUNT * threadIdx
   \/ THREAD_GROUP_COUNT * threadIdx + THREAD_GROUP_COUNT <= slot)%nat ->
  let blk' := snd (compress_params quant_of thread_idx threadIdx blk) in
  nth slot (b_max_index blk') 0 = nth slot (b_max_index blk) 0 /\
  nth slot (b_bits blk') 0 = nth slot (b_bits blk) 0 /\
  nth slot (b_high blk') 0 = nth slot (b_high blk) 0 /\
  b_words blk' = b_words blk.
Proof.
  intros Hslot blk'.
  destruct (compress_groups_confined quant_of thread_idx threadIdx
              (seq 0 THREAD_GROUP_COUNT) initial_locals blk slot)
    as [H1 [H2 [H3 [H4 _]]]].
  - apply Forall_forall. intros i Hi. apply in_seq in Hi.
    unfold THREAD_GROUP_COUNT in *. lia.
  - repeat split; assumption.
Qed.

Lemma compress_groups_table (quant_of : Z -> Z) (thread_idx : Z)
    (threadIdx n : nat) :
  forall k loc blk,
    (k + n <= THREAD_GROUP_COUNT)%nat ->
    length (group_bits loc) = THREAD_GROUP_COUNT ->
    (THREAD_GROUP_COUNT * threadIdx + THREAD_GROUP_COUNT
     <= length (b_bits blk))%nat ->
    (forall i, (i < k)%nat ->
       nth (THREAD_GROUP_COUNT * threadIdx + i) (b_bits blk) 0
       = nth i (group_bits loc) 0) ->
    let r := fold_left (compress_group quant_of thread_idx threadIdx)
                       (seq k n) (loc, blk) in
    forall i, (i < k + n)%nat ->
      nth (THREAD_GROUP_COUNT * threadIdx + i) (b_bits (snd r)) 0
      = nth i (group_bits (fst r)) 0.
Proof.
  induction n as [|n IH]; intros k loc blk Hk Hgb Hbt Hsame.
  - cbn. intros i Hi. apply Hsame. lia.
  - cbn [seq fold_left].
    destruct (compress_group_effect quant_of thread_idx threadIdx loc blk k)
      as [bits [m [high [_ ->]]]].
    intros i Hi. replace (k + S n)%nat with (S k + n)%nat in Hi by lia.
    revert i Hi. apply IH; cbn [group_bits b_bits];
      rewrite ?length_upd; try assumption; [lia|].
    intros i Hi. unfold THREAD_GROUP_COUNT in *.
    destruct (Nat.eq_dec i k) as [->|Hne].
    + rewrite !nth_upd_same by lia. reflexivity.
    + rewrite !nth_upd_other by lia. apply Hsame. lia.
Qed.

(** The width a thread records for group [i] in the [bits] table of the
    block is the width it keeps in [group_bits[i]] for packing. *)
Theorem compress_params_table_bits (quant_of : Z -> Z) (thread_idx : Z)
    (threadIdx : nat) (blk : block_data) (i : nat) :
  (threadIdx < BLOCK_SIZE)%nat ->
  length (b_bits blk) = BLOCK_PARAM_COUNT ->
  (i < THREAD_GROUP_COUNT)%nat ->
  let r := compress_params quant_of thread_idx threadIdx blk in
  nth (THREAD_GROUP_COUNT * threadIdx + i) (b_bits (snd r)) 0
  = nth i (group_bits (fst r)) 0.
Proof.
  intros Ht Hlen Hi.
  apply (compress_groups_table quant_of thread_idx threadIdx
           THREAD_GROUP_COUNT 0 initial_locals blk).
  - unfold THREAD_GROUP_COUNT. lia.
  - reflexivity.
  - rewrite Hlen. unfold BLOCK_PARAM_COUNT, BLOCK_SIZE, THREAD_GROUP_COUNT in *.
    lia.
  - intros j Hj. lia.
  - unfold THREAD_GROUP_COUNT in *. lia.
Qed.

(** ** Where the groups of a thread lie in the packed region *)

Lemma pack_groups_cursor (loc : thread_locals) (n : nat) :
  forall k words cursor,
    snd (fold_left (pack_group loc) (seq k n) (words, cursor))
    = (cursor
       + list_sum (map (fun i => Z.to_nat (nth i (group_bits loc) 0%Z))
                       (seq k n)))%nat.
Proof.
  induction n as [|n IH]; intros k words cursor; cbn [seq fold_left map].
  - cbn. lia.
  - pose proof (eq_refl : snd (pack_group loc (words, cursor) k)
                          = (cursor + Z.to_nat (nth k (group_bits loc) 0%Z))%nat)
      as Hc.
    destruct (pack_group loc (words, cursor) k) as [words' cursor'].
    cbn [snd] in Hc. rewrite IH, Hc. unfold list_sum. cbn [fold_right]. lia.
Qed.

Lemma decompress_group_cursor (blk : block_data) (thread_idx : Z)
    (threadIdx : nat) (s : decode_state) (i : nat) :
  d_cursor (decompress_group blk thread_idx threadIdx s i)
  = (d_cursor s
     + Z.to_nat (nth (THREAD_GROUP_COUNT * threadIdx + i) (b_bits blk) 0%Z))%nat.
Proof.
  unfold decompress_group, unpack_group.
  match goal with
  | |- context [fold_left ?f ?l ?a] => destruct (fold_left f l a)
  end.
  reflexivity.
Qed.

Lemma decompress_groups_cursor (blk : block_data) (thread_idx : Z)
    (threadIdx n : nat) :
  forall k s,
    d_cursor (fold_left (decompress_group blk thread_idx threadIdx)
                        (seq k n) s)
    = (d_cursor s
       + list_sum
           (map (fun i => Z.to_nat
                            (nth (THREAD_GROUP_COUNT * threadIdx + i)
                                 (b_bits blk) 0%Z))
                (seq k n)))%nat.
Proof.
  induction n as [|n IH]; intros k s; cbn [seq fold_left map].
  - cbn. lia.
  - rewrite IH, decompress_group_cursor. unfold list_sum. cbn [fold_right].
    lia.
Qed.

(** The encoder writes group [g] of a thread at the offset the block scan
    gave the thread plus the widths of the thread's earlier groups.  The
    decoder reads group [g] of a thread at the sum of the widths of that
    thread's earlier groups alone: the widths of the threads before it do
    not enter, and every thread starts at word 0 of the packed region. *)
Theorem group_offset_laws (loc : thread_locals) (offset : Z)
    (blk : block_data) (threadIdx g : nat) :
  encoder_group_offset loc offset g
  = (Z.to_nat offset
     + list_sum (map (fun i => Z.to_nat (nth i (group_bits loc) 0%Z))
                     (seq 0 g)))%nat /\
  decoder_group_offset blk threadIdx g
  = list_sum
      (map (fun i => Z.to_nat
                       (nth (THREAD_GROUP_COUNT * threadIdx + i)
                            (b_bits blk) 0))
           (seq 0 g)).
Proof.
  split.
  - unfold encoder_group_offset. apply pack_groups_cursor.
  - unfold decoder_group_offset. rewrite decompress_groups_cursor.
    reflexivity.
Qed.

(** ** What the deinterleaver can return *)

(** Whatever the packed words hold, each of the 32 words the
    deinterleaver returns is below [2^bits]. *)
Theorem deinterleave_words_fit (input : list Z) (bits : nat) :
  (bits <= 32)%nat ->
  length (deinterleave_words_1bit input bits) = 32%nat /\
  Forall (fun v => 0 <= v < 2 ^ Z.of_nat bits)
         (deinterleave_words_1bit input bits).
Proof.
  intros Hbits. unfold deinterleave_words_1bit. split.
  - now rewrite length_map, length_seq.
  - apply Forall_forall. intros v Hin. apply in_map_iff in Hin.
    destruct Hin as [i [<- _]].
    assert (Hmod : deinterleave_lane input bits i
                   = deinterleave_lane input bits i mod 2 ^ Z.of_nat bits).
    { apply Z.bits_inj'. intros n Hn.
      rewrite Z.testbit_mod_pow2, deinterleave_lane_testbit by lia.
      destruct (n <? Z.of_nat bits); rewrite ?andb_false_r; reflexivity. }
    rewrite Hmod. apply Z.mod_pos_bound. apply Z.pow_pos_nonneg; lia.
Qed.

(** ** What one thread of the decoder writes *)

Lemma undelta_floats_confined (thread_idx : Z) (i : nat) (qg : list Z)
    (k : nat) (js : list nat) :
  forall prev floats,
    Forall (fun j => Z.to_nat (decompress_float_index thread_idx i j) <> k)
           js ->
    let r := fold_left (undelta_step thread_idx i qg) js (prev, floats) in
    nth k (snd r) 0 = nth k floats 0 /\ length (snd r) = length floats.
Proof.
  induction js as [|j js IH]; intros prev floats Hjs; [split; reflexivity|].
  inversion Hjs as [|? ? Hj Hrest]; subst.
  cbn [fold_left]. unfold undelta_step at 2 4.
  match goal with
  | |- context [fold_left _ js (?p, ?f)] =>
      destruct (IH p f Hrest) as [H1 H2]
  end.
  cbv zeta. rewrite H1, H2, length_upd. split; [|reflexivity].
  apply nth_upd_other. congruence.
Qed.

Lemma decompress_groups_confined (blk : block_data) (thread_idx : Z)
    (threadIdx k : nat) (groups : list nat) :
  forall s,
    0 <= thread_idx ->
    Forall (fun i => (i < THREAD_GROUP_COUNT)%nat) groups ->
    (k < Z.to_nat thread_idx * THREAD_FLOAT_COUNT
     \/ Z.to_nat thread_idx * THREAD_FLOAT_COUNT + THREAD_FLOAT_COUNT <= k)%nat ->
    let s' := fold_left (decompress_group blk thread_idx threadIdx) groups s in
    nth k (d_floats s') 0 = nth k (d_floats s) 0 /\
    length (d_floats s') = length (d_floats s).
Proof.
  induction groups as [|i groups IH]; intros s Ht Hgroups Hk;
    [split; reflexivity|].
  inversion Hgroups as [|? ? Hi Hrest]; subst.
  cbn [fold_left].
  destruct (IH (decompress_group blk thread_idx threadIdx s i) Ht Hrest Hk)
    as [H1 H2].
  cbv zeta. rewrite H1, H2.
  unfold decompress_group.
  destruct (unpack_group blk threadIdx (d_quant_group s) (d_cursor s) i)
    as [qg cursor].
  pose proof (undelta_floats_confined thread_idx i qg k
                (seq 0 QUANT_GROUP_SIZE) (d_prev_quant s) (d_floats s)) as Hin.
  destruct (fold_left (undelta_step thread_idx i qg) (seq 0 QUANT_GROUP_SIZE)
              (d_prev_quant s, d_floats s)) as [prev floats].
  cbn [d_floats snd] in *. apply Hin.
  apply Forall_forall. intros j Hj. apply in_seq in Hj.
  unfold decompress_float_index, THREAD_FLOAT_COUNT, THREAD_GROUP_COUNT,
    QUANT_GROUP_SIZE in *.
  lia.
Qed.

(** A thread of the decoder writes the 128 floats
    [thread_idx * 128 .. thread_idx * 128 + 127] only, and never changes
    the size of the output. *)
Theorem decompress_thread_confined (blk : block_data) (thread_idx : Z)
    (threadIdx : nat) (floats : list Z) (k : nat) :
  0 <= thread_idx ->
  (k < Z.to_nat thread_idx * THREAD_FLOAT_COUNT
   \/ Z.to_nat thread_idx * THREAD_FLOAT_COUNT + THREAD_FLOAT_COUNT <= k)%nat ->
  nth k (decompress_thread blk thread_idx threadIdx floats) 0 = nth k floats 0
  /\ length (decompress_thread blk thread_idx threadIdx floats)
     = length floats.
Proof.
  intros Ht Hk. unfold decompress_thread.
  apply (decompress_groups_confined blk thread_idx threadIdx k
           (seq 0 THREAD_GROUP_COUNT)
           (mkDecode (repeat 0 THREAD_FLOAT_COUNT) 0 0%nat floats)
           Ht); [|exact Hk].
  apply Forall_forall. intros i Hi. apply in_seq in Hi. lia.
Qed.

(** ** Packing a group and unpacking it again *)

Lemma nth_upd_range_outside (vs : list Z) :
  forall a c k d,
    (k < c \/ c + length vs <= k)%nat ->
    nth k (upd_range a c vs) d = nth k a d.
Proof.
  induction vs as [|v vs IH]; intros a c k d Hk; [reflexivity|].
  cbn [upd_range length] in *. rewrite IH by lia.
  apply nth_upd_other. lia.
Qed.

Lemma nth_upd_range_inside (vs : list Z) :
  forall a c k d,
    (c + length vs <= length a)%nat -> (k < length vs)%nat ->
    nth (c + k) (upd_range a c vs) d = nth k vs d.
Proof.
  induction vs as [|v vs IH]; intros a c k d Hfit Hk;
    cbn [upd_range length] in *; [lia|].
  destruct k as [|k].
  - rewrite Nat.add_0_r, nth_upd_range_outside by lia.
    apply nth_upd_same. lia.
  - replace (c + S k)%nat with (S c + k)%nat by lia.
    rewrite IH by (rewrite ?length_upd; lia). reflexivity.
Qed.

Lemma deinterleave_lane_ext (ws ws' : list Z) (bits i : nat) :
  (forall j, (j < bits)%nat -> nth j ws 0 = nth j ws' 0) ->
  deinterleave_lane ws bits i = deinterleave_lane ws' bits i.
Proof.
  intros Hsame. apply Z.bits_inj'. intros n Hn.
  rewrite !deinterleave_lane_testbit by lia.
  destruct (Z.ltb_spec n (Z.of_nat bits)) as [Hlt|Hge].
  - rewrite Hsame by lia. reflexivity.
  - now rewrite !andb_false_r.
Qed.

(** When the second loop of the encoder has packed group [i] of a thread
    at [cursor], and the tables of the block hold the width of the group,
    a position [idx] and a value [high], the decoder unpacking the group
    from [cursor] advances as far as the encoder did and leaves, at every
    position of the group but [idx], the encoder's residual reduced to its
    low [bits] bits, and at [idx] the value
    [(high << bits) | ((1 << bits) - 1)]. *)
Theorem pack_then_unpack_group
    (loc : thread_locals) (words qg mi bt hi : list Z)
    (cursor i threadIdx idx : nat) :
  let slot := (THREAD_GROUP_COUNT * threadIdx + i)%nat in
  let bits := nth i (group_bits loc) 0 in
  let packed := pack_group loc (words, cursor) i in
  let unpacked :=
    unpack_group (mkBlock mi bt hi (fst packed)) threadIdx qg cursor i in
  (i < THREAD_GROUP_COUNT)%nat ->
  length qg = THREAD_FLOAT_COUNT ->
  0 <= bits <= 32 ->
  (cursor + Z.to_nat bits <= length words)%nat ->
  nth slot bt 0 = bits ->
  nth slot mi 0 = Z.of_nat idx ->
  (idx < QUANT_GROUP_SIZE)%nat ->
  snd unpacked = snd packed /\
  forall k, (k < QUANT_GROUP_SIZE)%nat ->
    nth (i * QUANT_GROUP_SIZE + k) (fst unpacked) 0
    = if (k =? idx)%nat then restore_max (nth slot hi 0) bits
      else nth (i * QUANT_GROUP_SIZE + k) (quant_group loc) 0 mod 2 ^ bits.
Proof.
  intros slot bits packed unpacked Hi Hqg Hbits Hfit Hbt Hmi Hidx.
  unfold unpacked, packed, unpack_group, pack_group.
  cbn [fst snd b_max_index b_bits b_high b_words].
  fold slot. fold bits. rewrite Hbt, Hmi, Nat2Z.id.
  split; [reflexivity|].
  intros k Hk.
  set (x := skipn (i * QUANT_GROUP_SIZE) (quant_group loc)).
  set (ws := skipn cursor
               (upd_range words cursor
                  (interleave_words_1bit x (Z.to_nat bits)))).
  assert (Hlenbits : length (interleave_words_1bit x (Z.to_nat bits))
                     = Z.to_nat bits).
  { unfold interleave_words_1bit. now rewrite length_map, length_seq. }
  assert (Hin : (i * QUANT_GROUP_SIZE + QUANT_GROUP_SIZE
                 <= THREAD_FLOAT_COUNT)%nat).
  { unfold THREAD_FLOAT_COUNT, THREAD_GROUP_COUNT, QUANT_GROUP_SIZE in *.
    lia. }
  assert (Hgroup :
            forall qg1 : list Z,
              length qg1 = THREAD_FLOAT_COUNT ->
              nth (i * QUANT_GROUP_SIZE + k)
                  (upd qg1 (i * QUANT_GROUP_SIZE + idx)
                       (restore_max (nth slot hi 0) bits)) 0
              = if (k =? idx)%nat then restore_max (nth slot hi 0) bits
                else nth (i * QUANT_GROUP_SIZE + k) qg1 0).
  { intros qg1 Hlen1. destruct (Nat.eqb_spec k idx) as [->|Hne].
    - apply nth_upd_same. lia.
    - apply nth_upd_other. lia. }
  destruct (Z.eqb_spec bits 0) as [H0|Hpos].
  - rewrite Hgroup by (rewrite length_upd_range; exact Hqg).
    destruct (k =? idx)%nat; [reflexivity|].
    rewrite nth_upd_range_inside
      by (rewrite ?repeat_length; unfold QUANT_GROUP_SIZE in *; lia).
    rewrite H0, Z.pow_0_r, Z.mod_1_r. apply nth_repeat.
  - rewrite Hgroup by (rewrite length_upd_range; exact Hqg).
    destruct (k =? idx)%nat; [reflexivity|].
    assert (Hlend : length (deinterleave_words_1bit ws (Z.to_nat bits))
                    = QUANT_GROUP_SIZE).
    { unfold deinterleave_words_1bit. now rewrite length_map, length_seq. }
    rewrite nth_upd_range_inside by lia.
    unfold deinterleave_words_1bit.
    rewrite nth_map_lt with (d' := 0%nat)
      by (rewrite length_seq; exact Hk).
    rewrite seq_nth by exact Hk. cbn [Nat.add].
    rewrite deinterleave_lane_ext
      with (ws' := interleave_words_1bit x (Z.to_nat bits)).
    + rewrite deinterleave_interleave_lane
        by (unfold QUANT_GROUP_SIZE in *; lia).
      unfold x. rewrite nth_skipn, Z2Nat.id by lia. reflexivity.
    + intros j Hj. unfold ws. rewrite nth_skipn.
      apply nth_upd_range_inside; lia.
Qed.

(** ** The block scan and the recorded word count *)

Lemma initial_counted : counted 0 initial_locals.
Proof.
  constructor; try reflexivity.
  - unfold initial_locals, THREAD_GROUP_COUNT. cbn. repeat constructor; lia.
  - intros i _. unfold initial_locals, THREAD_GROUP_COUNT. cbn.
    destruct i as [|[|[|[|[|i]]]]]; reflexivity.
Qed.

Lemma block_params_step (quant_of : Z -> Z) (blockIdx n : nat)
    (blk0 : block_data) :
  block_params quant_of blockIdx (S n) blk0
  = (let st := block_params quant_of blockIdx n blk0 in
     let r := compress_params quant_of (global_thread_idx blockIdx n) n
                              (snd st) in
     (fst st ++ [fst r], snd r)).
Proof.
  unfold block_params. rewrite seq_S, fold_left_app. cbn [fold_left Nat.add].
  cbv zeta.
  destruct (compress_params quant_of (global_thread_idx blockIdx n) n _).
  reflexivity.
Qed.

Lemma compress_groups_bits_length (quant_of : Z -> Z) (thread_idx : Z)
    (threadIdx : nat) (groups : list nat) :
  forall loc blk,
    length (b_bits (snd (fold_left
                           (compress_group quant_of thread_idx threadIdx)
                           groups (loc, blk))))
    = length (b_bits blk).
Proof.
  induction groups as [|i groups IH]; intros loc blk; [reflexivity|].
  cbn [fold_left].
  destruct (compress_group_effect quant_of thread_idx threadIdx loc blk i)
    as [bits [m [high [_ ->]]]].
  rewrite IH. cbn [b_bits]. apply length_upd.
Qed.

Lemma block_params_ready (quant_of : Z -> Z) (blockIdx : nat)
    (blk0 : block_data) (n : nat) :
  length (b_bits blk0) = BLOCK_PARAM_COUNT -> (n <= BLOCK_SIZE)%nat ->
  params_ready n (block_params quant_of blockIdx n blk0).
Proof.
  intros Hlen. induction n as [|n IH]; intros Hn.
  - constructor; try assumption; try reflexivity. intros t Ht. lia.
  - destruct (IH ltac:(lia)) as [Hcount Htable Hthread].
    rewrite block_params_step. cbv zeta.
    set (st := block_params quant_of blockIdx n blk0) in *.
    set (tid := global_thread_idx blockIdx n).
    pose proof (compress_groups_counted quant_of tid n THREAD_GROUP_COUNT 0
                  initial_locals (snd st) ltac:(unfold THREAD_GROUP_COUNT; lia)
                  initial_counted) as [Hc1 Hc2 _ Hc4].
    pose proof (compress_groups_table quant_of tid n THREAD_GROUP_COUNT 0
                  initial_locals (snd st)
                  ltac:(unfold THREAD_GROUP_COUNT; lia) eq_refl) as Htab.
    cbv zeta in Htab.
    assert (Hroom : (THREAD_GROUP_COUNT * n + THREAD_GROUP_COUNT
                     <= length (b_bits (snd st)))%nat).
    { rewrite Htable.
      unfold BLOCK_PARAM_COUNT, BLOCK_SIZE, THREAD_GROUP_COUNT in *. lia. }
    specialize (Htab Hroom ltac:(intros; lia)).
    fold (compress_params quant_of tid n (snd st)) in Hc1, Hc2, Hc4, Htab.
    constructor; cbn [fst snd].
    + rewrite length_app, Hcount. cbn. lia.
    + unfold compress_params. rewrite compress_groups_bits_length.
      exact Htable.
    + intros t Ht. cbv zeta.
      destruct (Nat.eq_dec t n) as [->|Hne].
      * rewrite app_nth2, Hcount, Nat.sub_diag by lia. cbn [nth].
        repeat split; assumption.
      * assert (Htn : (t < n)%nat) by lia.
        rewrite app_nth1 by lia.
        destruct (Hthread t Htn) as [H1 [H2 [H3 H4]]].
        repeat split; try assumption.
        intros i Hi. rewrite <- (H4 i Hi).
        pose proof (compress_groups_confined quant_of tid n
                      (seq 0 THREAD_GROUP_COUNT) initial_locals (snd st)
                      (THREAD_GROUP_COUNT * t + i)%nat) as Hconf.
        cbv zeta in Hconf. apply Hconf.
        apply Forall_forall. intros j Hj. apply in_seq in Hj.
        unfold THREAD_GROUP_COUNT in *. lia.
Qed.

Lemma sum_bits_within (M : Z) (l : list Z) :
  Forall (fun u => 0 <= u <= M) l ->
  0 <= sum_bits l <= M * Z.of_nat (length l).
Proof.
  induction 1 as [|h t Hh Ht IH]; simpl length; simpl sum_bits; lia.
Qed.

Lemma sum_bits_app (l1 l2 : list Z) :
  sum_bits (l1 ++ l2) = sum_bits l1 + sum_bits l2.
Proof. induction l1 as [|h t IH]; simpl; lia. Qed.

Lemma sum_bits_scaled (c : Z) (f : nat -> Z) (l : list nat) :
  sum_bits (map (fun t => c * f t) l) = c * sum_bits (map f l).
Proof. induction l as [|h t IH]; simpl; lia. Qed.

Lemma map_nth_seq {A B : Type} (g : A -> B) (l : list A) (d : A) :
  map g l = map (fun t => g (nth t l d)) (seq 0 (length l)).
Proof.
  induction l as [|a l IH]; [reflexivity|].
  cbn [length seq map nth]. f_equal.
  rewrite <- seq_shift, map_map. exact IH.
Qed.

Lemma exclusive_sum_nth (xs : list Z) :
  forall acc k,
    Forall (fun x => 0 <= x) xs -> 0 <= acc ->
    acc + sum_bits xs < 2 ^ 32 -> (k < length xs)%nat ->
    nth k (exclusive_sum_from acc xs) 0 = acc + sum_bits (firstn k xs).
Proof.
  induction xs as [|x xs IH]; intros acc k Hpos Hacc Hsum Hk;
    [simpl in Hk; lia|].
  inversion Hpos as [|? ? Hx Hxs]; subst.
  pose proof (sum_bits_within (sum_bits xs) xs) as _.
  assert (Hs : 0 <= sum_bits xs).
  { clear - Hxs. induction Hxs; simpl; lia. }
  simpl sum_bits in Hsum.
  destruct k as [|k]; cbn [exclusive_sum_from nth firstn].
  - simpl. lia.
  - rewrite IH; try assumption.
    + unfold u32. rewrite Z.mod_small by lia. simpl sum_bits. lia.
    + unfold u32. apply Z.mod_pos_bound. lia.
    + unfold u32. rewrite Z.mod_small by lia. lia.
    + simpl in Hk. lia.
Qed.

Lemma firstn_seq_prefix (k : nat) :
  forall a n, (k <= n)%nat -> firstn k (seq a n) = seq a k.
Proof.
  induction k as [|k IH]; intros a n Hk; [reflexivity|].
  destruct n as [|n]; [lia|]. cbn [seq firstn]. f_equal. apply IH. lia.
Qed.

Lemma sum_bits_map_firstn (g : nat -> Z) (n k : nat) :
  (k <= n)%nat ->
  sum_bits (firstn k (map g (seq 0 n))) = sum_bits (map g (seq 0 k)).
Proof.
  intros Hk. rewrite firstn_map, firstn_seq_prefix by exact Hk. reflexivity.
Qed.

(** The sum of a table of [4 * n] entries, four entries at a time. *)
Lemma sum_bits_chunks (n : nat) :
  forall (l : list Z) (f : nat -> Z),
    length l = (4 * n)%nat ->
    (forall t, (t < n)%nat ->
       f t = nth (4 * t) l 0 + nth (4 * t + 1) l 0
             + nth (4 * t + 2) l 0 + nth (4 * t + 3) l 0) ->
    sum_bits l = sum_bits (map f (seq 0 n)).
Proof.
  induction n as [|n IH]; intros l f Hlen Hf.
  - destruct l; [reflexivity|discriminate].
  - destruct l as [|a [|b [|c [|d l]]]]; try (simpl in Hlen; lia).
    cbn [seq map]. rewrite <- seq_shift, map_map.
    simpl sum_bits. rewrite (Hf 0%nat) by lia. cbn [Nat.mul Nat.add nth].
    rewrite (IH l (fun t => f (S t))).
    + lia.
    + simpl in Hlen. lia.
    + intros t Ht. rewrite (Hf (S t)) by lia.
      replace (4 * S t)%nat with (S (S (S (S (4 * t))))) by lia.
      cbn [Nat.add nth]. reflexivity.
Qed.

Lemma sum_bits_four (gb : list Z) :
  length gb = 4%nat ->
  sum_bits gb = nth 0 gb 0 + nth 1 gb 0 + nth 2 gb 0 + nth 3 gb 0.
Proof.
  destruct gb as [|a [|b [|c [|d [|e gb]]]]]; try discriminate.
  intros _. simpl. lia.
Qed.

Lemma b_bits_mkBlock (mi bt hi ws : list Z) : b_bits (mkBlock mi bt hi ws) = bt.
Proof. reflexivity. Qed.

Lemma kernel_locals (quant_of : Z -> Z) (blockIdx : nat) (blk0 : block_data) :
  r_locals (SZplus_compress_kernel_f32 quant_of blockIdx blk0)
  = fst (block_params quant_of blockIdx BLOCK_SIZE blk0).
Proof.
  unfold SZplus_compress_kernel_f32. cbn [r_locals]. unfold block_params.
  reflexivity.
Qed.

Lemma kernel_block (quant_of : Z -> Z) (blockIdx : nat) (blk0 : block_data) :
  r_block (SZplus_compress_kernel_f32 quant_of blockIdx blk0)
  = mkBlock
      (b_max_index (snd (block_params quant_of blockIdx BLOCK_SIZE blk0)))
      (b_bits (snd (block_params quant_of blockIdx BLOCK_SIZE blk0)))
      (b_high (snd (block_params quant_of blockIdx BLOCK_SIZE blk0)))
      (b_words (r_block (SZplus_compress_kernel_f32 quant_of blockIdx blk0))).
Proof.
  unfold SZplus_compress_kernel_f32. cbn [r_block b_words]. unfold block_params.
  reflexivity.
Qed.

Lemma kernel_bits (quant_of : Z -> Z) (blockIdx : nat) (blk0 : block_data) :
  b_bits (r_block (SZplus_compress_kernel_f32 quant_of blockIdx blk0))
  = b_bits (snd (block_params quant_of blockIdx BLOCK_SIZE blk0)).
Proof. rewrite kernel_block. apply b_bits_mkBlock. Qed.

Lemma kernel_offsets (quant_of : Z -> Z) (blockIdx : nat) (blk0 : block_data) :
  r_offsets (SZplus_compress_kernel_f32 quant_of blockIdx blk0)
  = ExclusiveSum
      (map used_words
           (r_locals (SZplus_compress_kernel_f32 quant_of blockIdx blk0))).
Proof.
  unfold SZplus_compress_kernel_f32. cbn [r_offsets r_locals]. reflexivity.
Qed.

Lemma kernel_used_words (quant_of : Z -> Z) (blockIdx : nat)
    (blk0 : block_data) :
  r_block_used_words (SZplus_compress_kernel_f32 quant_of blockIdx blk0)
  = u32 (nth (BLOCK_SIZE - 1)
             (r_offsets (SZplus_compress_kernel_f32 quant_of blockIdx blk0)) 0
         + used_words
             (nth (BLOCK_SIZE - 1)
                  (r_locals
                     (SZplus_compress_kernel_f32 quant_of blockIdx blk0))
                  initial_locals)).
Proof.
  unfold SZplus_compress_kernel_f32.
  cbn [r_offsets r_locals r_block_used_words]. reflexivity.
Qed.

(** For every input, the exclusive sum a thread receives is eight times
    the widths recorded for the threads before it, and the word count the
    block records is eight times the sum of its whole [bits] table. *)
Theorem block_used_words_law (quant_of : Z -> Z) (blockIdx : nat)
    (blk0 : block_data) :
  length (b_bits blk0) = BLOCK_PARAM_COUNT ->
  let r := SZplus_compress_kernel_f32 quant_of blockIdx blk0 in
  r_block_used_words r = 8 * sum_bits (b_bits (r_block r)) /\
  forall w, (w < BLOCK_SIZE)%nat ->
    nth w (r_offsets r) 0
    = 8 * sum_bits (firstn (THREAD_GROUP_COUNT * w) (b_bits (r_block r))).
Proof.
  intros Hlen r.
  pose proof (block_params_ready quant_of blockIdx blk0 BLOCK_SIZE Hlen
                (Nat.le_refl _)) as [Hcount Htable Hthread].
  pose proof (kernel_bits quant_of blockIdx blk0) as Hbits.
  pose proof (kernel_offsets quant_of blockIdx blk0) as Hoffs.
  pose proof (kernel_used_words quant_of blockIdx blk0) as Hbuw.
  rewrite kernel_locals in Hoffs, Hbuw.
  fold r in Hbits, Hoffs, Hbuw.
  set (st := block_params quant_of blockIdx BLOCK_SIZE blk0) in *.
  set (f := fun t => sum_bits (group_bits (nth t (fst st) initial_locals))).
  assert (Hus : map used_words (fst st)
                = map (fun t => 8 * f t) (seq 0 BLOCK_SIZE)).
  { rewrite (map_nth_seq used_words (fst st) initial_locals), Hcount.
    apply map_ext_in. intros t Ht. apply in_seq in Ht.
    destruct (Hthread t ltac:(lia)) as [_ [_ [Hu _]]]. exact Hu. }
  assert (Hf : forall t, (t < BLOCK_SIZE)%nat -> 0 <= f t <= 128).
  { intros t Ht. destruct (Hthread t Ht) as [Hl [Hr _]].
    pose proof (sum_bits_bound _ Hr) as Hb. rewrite Hl in Hb.
    unfold f, THREAD_GROUP_COUNT in *. lia. }
  assert (Hrange : Forall (fun u => 0 <= u <= 1024)
                          (map used_words (fst st))).
  { rewrite Hus. apply Forall_forall. intros u Hu. apply in_map_iff in Hu.
    destruct Hu as [t [<- Ht]]. apply in_seq in Ht.
    specialize (Hf t ltac:(lia)). lia. }
  pose proof (sum_bits_within 1024 _ Hrange) as Htotal.
  rewrite length_map, Hcount in Htotal.
  assert (Hchunk : forall w, (w <= BLOCK_SIZE)%nat ->
            sum_bits (firstn (THREAD_GROUP_COUNT * w) (b_bits (snd st)))
            = sum_bits (map f (seq 0 w))).
  { intros w Hw. apply sum_bits_chunks.
    - rewrite length_firstn, Htable.
      unfold BLOCK_PARAM_COUNT, BLOCK_SIZE, THREAD_GROUP_COUNT in *. lia.
    - intros t Ht. destruct (Hthread t ltac:(lia)) as [Hl [_ [_ Hslot]]].
      unfold f. rewrite sum_bits_four by exact Hl.
      unfold THREAD_GROUP_COUNT in *.
      rewrite !nth_firstn.
      repeat match goal with
             | |- context [(?a <? ?b)%nat] =>
                 replace (a <? b)%nat with true
                   by (symmetry; apply Nat.ltb_lt; lia)
             end.
      rewrite <- (Hslot 0%nat), <- (Hslot 1%nat), <- (Hslot 2%nat),
        <- (Hslot 3%nat) by lia.
      rewrite Nat.add_0_r. reflexivity. }
  assert (Hoff : forall w, (w < BLOCK_SIZE)%nat ->
            nth w (r_offsets r) 0 = 8 * sum_bits (map f (seq 0 w))).
  { intros w Hw. rewrite Hoffs. unfold ExclusiveSum.
    rewrite exclusive_sum_nth.
    - rewrite Hus, sum_bits_map_firstn, sum_bits_scaled by lia. lia.
    - eapply Forall_impl; [|exact Hrange]. simpl. intros; lia.
    - lia.
    - unfold BLOCK_SIZE in *. lia.
    - rewrite length_map, Hcount. exact Hw. }
  split.
  - rewrite Hbuw, Hoff by (unfold BLOCK_SIZE; lia).
    rewrite Hbits.
    replace (b_bits (snd st))
      with (firstn (THREAD_GROUP_COUNT * BLOCK_SIZE) (b_bits (snd st)))
      by (apply firstn_all2; rewrite Htable; reflexivity).
    rewrite Hchunk by lia.
    destruct (Hthread (BLOCK_SIZE - 1)%nat ltac:(unfold BLOCK_SIZE; lia))
      as [_ [_ [Hu _]]]. cbv zeta in Hu. rewrite Hu. fold (f (BLOCK_SIZE - 1)%nat).
    replace (seq 0 BLOCK_SIZE)
      with (seq 0 (BLOCK_SIZE - 1) ++ [(BLOCK_SIZE - 1)%nat]) by reflexivity.
    rewrite map_app, sum_bits_app. cbn [map sum_bits fold_right].
    assert (Hpart : 0 <= sum_bits (map f (seq 0 (BLOCK_SIZE - 1)))
                    <= 128 * 255).
    { pose proof (sum_bits_within 128 (map f (seq 0 (BLOCK_SIZE - 1)))) as H.
      rewrite length_map, length_seq in H. unfold BLOCK_SIZE in *.
      apply H. apply Forall_forall. intros u Hu'. apply in_map_iff in Hu'.
      destruct Hu' as [t [<- Ht]]. apply in_seq in Ht.
      apply Hf. unfold BLOCK_SIZE. lia. }
    specialize (Hf (BLOCK_SIZE - 1)%nat ltac:(unfold BLOCK_SIZE; lia)).
    unfold u32. rewrite Z.mod_small by lia. lia.
  - intros w Hw. rewrite Hoff, Hbits, Hchunk by lia. reflexivity.
Qed.

Lemma interleave_words_2bit_tiled input bits :
  interleave_words_2bit input bits = interleave_tiled 2 16 input bits.
Proof. reflexivity. Qed.

Lemma interleave_words_4bit_tiled input bits :
  interleave_words_4bit input bits = interleave_tiled 4 8 input bits.
Proof. reflexivity. Qed.

Lemma interleave_words_8bit_tiled input bits :
  interleave_words_8bit input bits = interleave_tiled 8 4 input bits.
Proof. reflexivity. Qed.

Lemma deinterleave_words_2bit_tiled input bits :
  deinterleave_words_2bit input bits = deinterleave_tiled 2 16 input bits.
Proof. reflexivity. Qed.

Lemma deinterleave_words_4bit_tiled input bits :
  deinterleave_words_4bit input bits = deinterleave_tiled 4 8 input bits.
Proof. reflexivity. Qed.

Lemma deinterleave_words_8bit_tiled input bits :
  deinterleave_words_8bit input bits = deinterleave_tiled 8 4 input bits.
Proof. reflexivity. Qed.

Lemma tile_positive (w n : nat) : tile w n -> (0 < w /\ w * n = 32)%nat.
Proof. intros [[-> ->]|[[-> ->]|[-> ->]]]; lia. Qed.

(** Quotient and remainder of [t] by the tile width, for [lia]. *)
Ltac divmod t w H :=
  pose proof (Nat.div_mod_eq t w);
  pose proof (Nat.mod_upper_bound t w
                ltac:(destruct (tile_positive _ _ H); lia)).

Ltac tile_cases H :=
  destruct H as [[-> ->]|[[-> ->]|[-> ->]]].

(** *** Fields of a word *)

Lemma field_testbit (y s w t : Z) :
  0 <= s -> 0 <= w -> 0 <= t ->
  Z.testbit (Z.land (Z.shiftr y s) (Z.ones w)) t
  = Z.testbit y (t + s) && (t <? w).
Proof.
  intros Hs Hw Ht.
  now rewrite Z.land_spec, Z.shiftr_spec, Z.testbit_ones_nonneg by lia.
Qed.

Lemma mask_field (x s w : Z) :
  0 <= s -> 0 <= w -> s + w <= 32 ->
  Z.shiftr (Z.land x (u32 (Z.shiftl (Z.ones w) s))) s
  = Z.land (Z.shiftr x s) (Z.ones w).
Proof.
  intros Hs Hw Hsw.
  assert (Hsmall : u32 (Z.shiftl (Z.ones w) s) = Z.shiftl (Z.ones w) s).
  { unfold u32. apply Z.mod_small.
    rewrite Z.shiftl_mul_pow2, Z.ones_equiv by lia.
    assert (0 < 2 ^ w) by (apply Z.pow_pos_nonneg; lia).
    assert (0 < 2 ^ s) by (apply Z.pow_pos_nonneg; lia).
    assert (2 ^ w * 2 ^ s <= 2 ^ 32).
    { rewrite <- Z.pow_add_r by lia. apply Z.pow_le_mono_r; lia. }
    nia. }
  rewrite Hsmall. apply Z.bits_inj'. intros t Ht.
  rewrite field_testbit by lia.
  rewrite Z.shiftr_spec, Z.land_spec, Z.shiftl_spec by lia.
  replace (t + s - s) with t by lia.
  now rewrite Z.testbit_ones_nonneg by lia.
Qed.

Lemma placed_testbit (v p m : Z) :
  0 <= p -> 0 <= m ->
  Z.testbit (u32 (Z.shiftl v p)) m = (m <? 32) && ((p <=? m) && Z.testbit v (m - p)).
Proof.
  intros Hp Hm. unfold u32.
  rewrite Z.testbit_mod_pow2, Z.shiftl_spec by lia. f_equal.
  destruct (Z.leb_spec p m); [reflexivity|].
  apply Z.testbit_neg_r. lia.
Qed.

(** Bit [m] of a field of [w] bits taken at [s] and put at [p]. *)
Lemma moved_field_testbit (y : Z) (s w p m : nat) :
  Z.testbit (u32 (Z.shiftl (Z.land (Z.shiftr y (Z.of_nat s))
                                   (Z.ones (Z.of_nat w)))
                           (Z.of_nat p)))
            (Z.of_nat m)
  = (m <? 32)%nat
    && ((p <=? m)%nat && ((m <? p + w)%nat
        && Z.testbit y (Z.of_nat (m - p + s)))).
Proof.
  rewrite placed_testbit by lia.
  replace (Z.of_nat m <? 32) with (m <? 32)%nat.
  2:{ destruct (Nat.ltb_spec m 32), (Z.ltb_spec (Z.of_nat m) 32);
      trivial; lia. }
  f_equal.
  replace (Z.of_nat p <=? Z.of_nat m) with (p <=? m)%nat.
  2:{ destruct (Nat.leb_spec p m), (Z.leb_spec (Z.of_nat p) (Z.of_nat m));
      trivial; lia. }
  destruct (Nat.leb_spec p m) as [Hle|Hlt]; [|reflexivity].
  cbn [andb]. rewrite field_testbit by lia.
  replace (Z.of_nat m - Z.of_nat p + Z.of_nat s)
    with (Z.of_nat (m - p + s)) by lia.
  replace (Z.of_nat m - Z.of_nat p <? Z.of_nat w) with (m <? p + w)%nat.
  2:{ destruct (Nat.ltb_spec m (p + w)),
        (Z.ltb_spec (Z.of_nat m - Z.of_nat p) (Z.of_nat w)); trivial; lia. }
  apply andb_comm.
Qed.

(** *** Lists made of chunks of one length *)

Lemma length_flat_map_chunks {A B : Type} (g : A -> list B) (c : nat)
    (l : list A) :
  (forall s, length (g s) = c) -> length (flat_map g l) = (c * length l)%nat.
Proof.
  intros Hg. induction l as [|s l IH]; cbn [flat_map length]; [lia|].
  rewrite length_app, Hg, IH. lia.
Qed.

Lemma nth_flat_map_chunks {A B : Type} (g : A -> list B) (c : nat)
    (d0 : A) (d : B) (l : list A) :
  (forall s, length (g s) = c) ->
  forall q, (q < c * length l)%nat ->
    nth q (flat_map g l) d = nth (q mod c) (g (nth (q / c) l d0)) d.
Proof.
  intros Hg. induction l as [|s l IH]; intros q Hq;
    cbn [flat_map length] in *; [lia|].
  assert (Hc : (0 < c)%nat) by lia.
  destruct (Nat.lt_ge_cases q c) as [Hlt|Hge].
  - rewrite app_nth1 by (rewrite Hg; exact Hlt).
    rewrite Nat.div_small, Nat.mod_small by exact Hlt. reflexivity.
  - rewrite app_nth2 by (rewrite Hg; exact Hge). rewrite Hg.
    rewrite IH by lia.
    assert (Hq' : q = (q - c + 1 * c)%nat) by lia.
    rewrite Hq' at 3 4.
    rewrite Nat.div_add, Nat.Div0.mod_add by lia.
    replace ((q - c) / c + 1)%nat with (S ((q - c) / c)) by lia.
    reflexivity.
Qed.

Lemma nth_map_seq {B : Type} (g : nat -> B) (n i : nat) (d : B) :
  (i < n)%nat -> nth i (map g (seq 0 n)) d = g i.
Proof.
  intros Hi. rewrite nth_map_lt with (d' := 0%nat)
    by (rewrite length_seq; exact Hi).
  now rewrite seq_nth by exact Hi.
Qed.

(** *** The bits of the accumulators *)

Lemma gather_testbit (w n : nat) (input : list Z) (shift off m : nat) :
  tile w n -> (shift + w <= 32)%nat ->
  Z.testbit
    (gather w n (u32 (Z.shiftl (Z.ones (Z.of_nat w)) (Z.of_nat shift)))
            input shift off)
    (Z.of_nat m)
  = (m <? 32)%nat
    && Z.testbit (nth (m / w + off) input 0) (Z.of_nat (shift + m mod w)).
Proof.
  intros Htile Hshift. unfold gather. divmod m w Htile.
  rewrite testbit_or_fold, Z.bits_0, orb_false_l.
  apply eq_true_iff_eq. rewrite existsb_exists, andb_true_iff. split.
  - intros [i [Hin Hbit]]. apply in_seq in Hin.
    rewrite mask_field, moved_field_testbit in Hbit by lia.
    rewrite !andb_true_iff in Hbit.
    destruct Hbit as [H32 [Hle [Hlt Hbit]]].
    apply Nat.leb_le in Hle. apply Nat.ltb_lt in Hlt.
    split; [exact H32|].
    assert (Hi : (m / w = i /\ shift + m mod w = m - i * w + shift)%nat)
      by (tile_cases Htile; lia).
    destruct Hi as [-> ->]. exact Hbit.
  - intros [H32 Hbit]. exists (m / w)%nat. apply Nat.ltb_lt in H32 as H32'.
    split; [apply in_seq; tile_cases Htile; lia|].
    rewrite mask_field, moved_field_testbit by lia.
    rewrite H32. cbn [andb].
    replace (m / w * w <=? m)%nat with true
      by (symmetry; apply Nat.leb_le; tile_cases Htile; lia).
    replace (m <? m / w * w + w)%nat with true
      by (symmetry; apply Nat.ltb_lt; tile_cases Htile; lia).
    cbn [andb].
    replace (m - m / w * w + shift)%nat with (shift + m mod w)%nat
      by (tile_cases Htile; lia).
    exact Hbit.
Qed.

Lemma scatter_testbit (w n : nat) (input : list Z) (bits i k m : nat) :
  tile w n ->
  Z.testbit (scatter w (Z.ones (Z.of_nat w)) input bits i k) (Z.of_nat m)
  = (m <? 32)%nat
    && ((m / w <? (bits + w - 1) / w)%nat
        && Z.testbit (nth (w * (m / w) + k) input 0)
                     (Z.of_nat (m mod w + i * w))).
Proof.
  intros Htile. unfold scatter, tile_shifts. divmod m w Htile.
  rewrite testbit_or_fold, Z.bits_0, orb_false_l.
  apply eq_true_iff_eq. rewrite existsb_exists, !andb_true_iff. split.
  - intros [j [Hin Hbit]]. apply in_map_iff in Hin.
    destruct Hin as [t [<- Ht]]. apply in_seq in Ht.
    rewrite moved_field_testbit, !andb_true_iff in Hbit.
    destruct Hbit as [H32 [Hle [Hlt Hbit]]].
    apply Nat.leb_le in Hle. apply Nat.ltb_lt in Hlt.
    assert (Hi : (m / w = t)%nat) by (tile_cases Htile; lia).
    split; [exact H32|]. split; [apply Nat.ltb_lt; lia|].
    replace (w * (m / w) + k)%nat with (t * w + k)%nat by lia.
    replace (m mod w + i * w)%nat with (m - t * w + i * w)%nat
      by (tile_cases Htile; lia).
    exact Hbit.
  - intros [H32 [Ht Hbit]]. apply Nat.ltb_lt in Ht.
    exists (m / w * w)%nat. split.
    + apply in_map_iff. exists (m / w)%nat. split; [reflexivity|].
      apply in_seq. lia.
    + rewrite moved_field_testbit, H32. cbn [andb].
      replace (m / w * w <=? m)%nat with true
        by (symmetry; apply Nat.leb_le; tile_cases Htile; lia).
      replace (m <? m / w * w + w)%nat with true
        by (symmetry; apply Nat.ltb_lt; tile_cases Htile; lia).
      cbn [andb].
      replace (m / w * w + k)%nat with (w * (m / w) + k)%nat by lia.
      replace (m - m / w * w + i * w)%nat with (m mod w + i * w)%nat
        by (tile_cases Htile; lia).
      exact Hbit.
Qed.

(** *** Words of the tiled interleaver and round trip *)

Lemma interleave_tiled_length (w n : nat) (x : list Z) (bits : nat) :
  length (interleave_tiled w n x bits) = (w * ((bits + w - 1) / w))%nat.
Proof.
  unfold interleave_tiled.
  rewrite length_flat_map_chunks with (c := w)
    by (intros s; now rewrite length_map, length_seq).
  unfold tile_shifts. now rewrite length_map, length_seq.
Qed.

Lemma interleave_tiled_nth (w n : nat) (x : list Z) (bits q : nat) :
  tile w n -> (q < w * ((bits + w - 1) / w))%nat ->
  nth q (interleave_tiled w n x bits) 0
  = gather w n
      (u32 (Z.shiftl (Z.ones (Z.of_nat w)) (Z.of_nat (q / w * w))))
      x (q / w * w) (q mod w * n).
Proof.
  intros Htile Hq. unfold interleave_tiled. divmod q w Htile.
  rewrite nth_flat_map_chunks with (c := w) (d0 := 0%nat).
  - unfold tile_shifts.
    rewrite (nth_map_seq (fun t => (t * w)%nat))
      by (tile_cases Htile; lia).
    rewrite nth_map_seq by lia. reflexivity.
  - intros s. now rewrite length_map, length_seq.
  - unfold tile_shifts. rewrite length_map, length_seq. exact Hq.
Qed.

Lemma deinterleave_tiled_nth (w n : nat) (ws : list Z) (bits p : nat) :
  tile w n -> (p < 32)%nat ->
  nth p (deinterleave_tiled w n ws bits) 0
  = scatter w (Z.ones (Z.of_nat w)) ws bits (p mod n) (p / n).
Proof.
  intros Htile Hp. unfold deinterleave_tiled.
  pose proof (Nat.div_mod_eq p n).
  assert (Hn : (0 < n)%nat) by (tile_cases Htile; lia).
  pose proof (Nat.mod_upper_bound p n ltac:(lia)).
  rewrite nth_flat_map_chunks with (c := n) (d0 := 0%nat).
  - rewrite seq_nth by (tile_cases Htile; lia).
    rewrite nth_map_seq by lia. reflexivity.
  - intros s. now rewrite length_map, length_seq.
  - rewrite length_seq. tile_cases Htile; lia.
Qed.

Lemma tiled_roundtrip (w n : nat) (bits : nat) (x : list Z) :
  tile w n -> (bits <= 32)%nat -> length x = 32%nat ->
  let W := (w * ((bits + w - 1) / w))%nat in
  length (interleave_tiled w n x bits) = W /\
  (forall q m, (q < W)%nat -> (m < 32)%nat ->
     Z.testbit (nth q (interleave_tiled w n x bits) 0) (Z.of_nat m)
     = Z.testbit (nth (m / w + q mod w * n) x 0)
                 (Z.of_nat (q / w * w + m mod w))) /\
  deinterleave_tiled w n (interleave_tiled w n x bits) bits
  = map (fun v => v mod 2 ^ Z.of_nat W) x.
Proof.
  intros Htile Hbits Hlen W.
  assert (HW : (W <= 32)%nat).
  { unfold W. divmod (bits + w - 1)%nat w Htile. tile_cases Htile; lia. }
  assert (Hword : forall q m, (q < W)%nat -> (m < 32)%nat ->
            Z.testbit (nth q (interleave_tiled w n x bits) 0) (Z.of_nat m)
            = Z.testbit (nth (m / w + q mod w * n) x 0)
                        (Z.of_nat (q / w * w + m mod w))).
  { intros q m Hq Hm. rewrite interleave_tiled_nth by assumption.
    rewrite gather_testbit; [|exact Htile|].
    - replace (m <? 32)%nat with true
        by (symmetry; apply Nat.ltb_lt; exact Hm).
      reflexivity.
    - divmod q w Htile. tile_cases Htile; lia. }
  split; [apply interleave_tiled_length|]. split; [exact Hword|].
  apply nth_ext with (d := 0) (d' := 0).
  - unfold deinterleave_tiled.
    rewrite length_flat_map_chunks with (c := n)
      by (intros s; now rewrite length_map, length_seq).
    rewrite length_map, length_seq, Hlen. tile_cases Htile; reflexivity.
  - intros p Hp.
    assert (Hp32 : (p < 32)%nat).
    { revert Hp. unfold deinterleave_tiled.
      rewrite length_flat_map_chunks with (c := n)
        by (intros s; now rewrite length_map, length_seq).
      rewrite length_seq. tile_cases Htile; lia. }
    rewrite deinterleave_tiled_nth by assumption.
    rewrite nth_map_lt with (d' := 0) by lia.
    apply Z.bits_inj'. intros z Hz.
    rewrite <- (Z2Nat.id z Hz). set (m := Z.to_nat z).
    rewrite (scatter_testbit w n) by exact Htile.
    rewrite Z.testbit_mod_pow2 by lia.
    divmod m w Htile. pose proof (Nat.div_mod_eq p n).
    assert (Hn : (0 < n)%nat) by (tile_cases Htile; lia).
    pose proof (Nat.mod_upper_bound p n ltac:(lia)).
    divmod (bits + w - 1)%nat w Htile.
    destruct (Nat.ltb_spec m 32) as [Hm|Hm].
    + destruct (Nat.ltb_spec (m / w) ((bits + w - 1) / w)) as [Ht|Ht].
      * cbn [andb].
        replace (Z.of_nat m <? Z.of_nat W) with true
          by (symmetry; apply Z.ltb_lt; unfold W;
              tile_cases Htile; lia).
        cbn [andb].
        assert (Hq : (w * (m / w) + p / n < W)%nat)
          by (unfold W; tile_cases Htile; lia).
        assert (Hm' : (m mod w + p mod n * w < 32)%nat)
          by (tile_cases Htile; lia).
        rewrite (Hword _ _ Hq Hm').
        divmod (w * (m / w) + p / n)%nat w Htile.
        divmod (m mod w + p mod n * w)%nat w Htile.
        f_equal; [f_equal|f_equal]; tile_cases Htile; lia.
      * cbn [andb].
        replace (Z.of_nat m <? Z.of_nat W) with false
          by (symmetry; apply Z.ltb_ge; unfold W;
              tile_cases Htile; lia).
        reflexivity.
    + cbn [andb].
      replace (Z.of_nat m <? Z.of_nat W) with false
        by (symmetry; apply Z.ltb_ge; lia).
      reflexivity.
Qed.

(** [interleave_words_2bit] writes [2 * ceil(bits / 2)] words, bit [m] of
    word [q] being bit [2 * (q / 2) + m mod 2] of input word
    [m / 2 + 16 * (q mod 2)]; [deinterleave_words_2bit] returns every input
    word reduced to that many low bits. *)
Theorem interleave_words_2bit_roundtrip (bits : nat) (x : list Z) :
  (bits <= 32)%nat -> length x = 32%nat ->
  let W := (2 * ((bits + 2 - 1) / 2))%nat in
  length (interleave_words_2bit x bits) = W /\
  (forall q m, (q < W)%nat -> (m < 32)%nat ->
     Z.testbit (nth q (interleave_words_2bit x bits) 0) (Z.of_nat m)
     = Z.testbit (nth (m / 2 + q mod 2 * 16) x 0)
                 (Z.of_nat (q / 2 * 2 + m mod 2))) /\
  deinterleave_words_2bit (interleave_words_2bit x bits) bits
  = map (fun v => v mod 2 ^ Z.of_nat W) x.
Proof.
  intros Hbits Hlen.
  rewrite deinterleave_words_2bit_tiled, interleave_words_2bit_tiled.
  apply (tiled_roundtrip 2 16 bits x); [left; split; reflexivity| |];
    assumption.
Qed.

(** [interleave_words_4bit] writes [4 * ceil(bits / 4)] words, bit [m] of
    word [q] being bit [4 * (q / 4) + m mod 4] of input word
    [m / 4 + 8 * (q mod 4)]; [deinterleave_words_4bit] returns every input
    word reduced to that many low bits. *)
Theorem interleave_words_4bit_roundtrip (bits : nat) (x : list Z) :
  (bits <= 32)%nat -> length x = 32%nat ->
  let W := (4 * ((bits + 4 - 1) / 4))%nat in
  length (interleave_words_4bit x bits) = W /\
  (forall q m, (q < W)%nat -> (m < 32)%nat ->
     Z.testbit (nth q (interleave_words_4bit x bits) 0) (Z.of_nat m)
     = Z.testbit (nth (m / 4 + q mod 4 * 8) x 0)
                 (Z.of_nat (q / 4 * 4 + m mod 4))) /\
  deinterleave_words_4bit (interleave_words_4bit x bits) bits
  = map (fun v => v mod 2 ^ Z.of_nat W) x.
Proof.
  intros Hbits Hlen.
  rewrite deinterleave_words_4bit_tiled, interleave_words_4bit_tiled.
  apply (tiled_roundtrip 4 8 bits x);
    [right; left; split; reflexivity| |]; assumption.
Qed.

(** [interleave_words_8bit] writes [8 * ceil(bits / 8)] words, bit [m] of
    word [q] being bit [8 * (q / 8) + m mod 8] of input word
    [m / 8 + 4 * (q mod 8)]; [deinterleave_words_8bit] returns every input
    word reduced to that many low bits. *)
Theorem interleave_words_8bit_roundtrip (bits : nat) (x : list Z) :
  (bits <= 32)%nat -> length x = 32%nat ->
  let W := (8 * ((bits + 8 - 1) / 8))%nat in
  length (interleave_words_8bit x bits) = W /\
  (forall q m, (q < W)%nat -> (m < 32)%nat ->
     Z.testbit (nth q (interleave_words_8bit x bits) 0) (Z.of_nat m)
     = Z.testbit (nth (m / 8 + q mod 8 * 4) x 0)
                 (Z.of_nat (q / 8 * 8 + m mod 8))) /\
  deinterleave_words_8bit (interleave_words_8bit x bits) bits
  = map (fun v => v mod 2 ^ Z.of_nat W) x.
Proof.
  intros Hbits Hlen.
  rewrite deinterleave_words_8bit_tiled, interleave_words_8bit_tiled.
  apply (tiled_roundtrip 8 4 bits x);
    [right; right; split; reflexivity| |]; assumption.
Qed.

(** ** Block count *)

(** For a float count that the [int] arithmetic can hold, the block count
    is the least number of blocks of [BLOCK_FLOAT_COUNT] floats that covers
    the floats. *)
Theorem block_count_covers (float_count : Z) :
  0 <= float_count <= 2 ^ 31 - 32768 ->
  0 <= block_count_of float_count /\
  float_count <= block_count_of float_count * 32768 < float_count + 32768.
Proof.
  intros Hn. unfold block_count_of.
  change (Z.of_nat BLOCK_FLOAT_COUNT) with 32768.
  unfold s32. rewrite Z.mod_small by lia.
  replace (float_count + 32768 - 1 + 2 ^ 31 - 2 ^ 31)
    with (float_count + 32767) by lia.
  rewrite Z.quot_div_nonneg by lia.
  pose proof (Z.div_mod (float_count + 32767) 32768 ltac:(lia)) as Hdm.
  pose proof (Z.mod_pos_bound (float_count + 32767) 32768 ltac:(lia)) as Hm.
  assert (0 <= (float_count + 32767) / 32768) by (apply Z.div_pos; lia).
  lia.
Qed.

Lemma block_count_covers_witness :
  0 <= 32769 <= 2 ^ 31 - 32768 /\
  0 <= block_count_of 32769 /\
  32769 <= block_count_of 32769 * 32768 < 32769 + 32768.
Proof.
  assert (H : 0 <= 32769 <= 2 ^ 31 - 32768) by lia.
  exact (conj H (block_count_covers 32769 H)).
Defined.

(** ** Decompress driver: rejected headers *)

(** When the input is shorter than the fixed header, or its first word is
    not the magic, [Decompress] returns [false], whatever the coder and
    the runtime do, and has read no byte that is not there. *)
Theorem Decompress_rejects_bad_header (dstate : Type)
    (step : dstate -> zbuffer -> zbuffer -> zresult * dstate * nat * nat)
    (fuel : nat) (e : Decompressor.env dstate) (data : list Z) :
  Z.of_nat (length data) < kHeaderBytes \/ read_uint32_le data 0 <> kMagic ->
  snd (Decompressor.Decompress dstate step fuel e data)
  = Some (Returned false) /\
  Forall (fun k => (k < length data)%nat)
         (fst (Decompressor.Decompress dstate step fuel e data)).
Proof.
  intros Hbad.
  destruct (Z.lt_ge_cases (Z.of_nat (length data)) kHeaderBytes)
    as [Hshort|Hlong].
  - rewrite Decompress_short_input by exact Hshort.
    split; [reflexivity|constructor].
  - destruct Hbad as [Hshort|Hmagic]; [lia|].
    rewrite Decompress_bad_magic by assumption.
    split; [reflexivity|]. cbn [fst]. unfold kHeaderBytes in Hlong.
    unfold read_uint32_le_indices. repeat constructor; lia.
Qed.

Lemma Decompress_rejects_bad_header_witness :
  (Z.of_nat (length [1; 2; 3]) < kHeaderBytes
   \/ read_uint32_le [1; 2; 3] 0 <> kMagic) /\
  snd (Decompressor.Decompress unit byte_copier 5 all_ok [1; 2; 3])
  = Some (Returned false).
Proof.
  assert (H : Z.of_nat (length [1; 2; 3]) < kHeaderBytes
              \/ read_uint32_le [1; 2; 3] 0 <> kMagic)
    by (left; reflexivity).
  exact (conj H (proj1 (Decompress_rejects_bad_header unit byte_copier 5
                          all_ok [1; 2; 3] H))).
Defined.

(** ** Witnesses *)

Lemma zigzag_decode_parity_witness :
  0 <= 5 < 2 ^ 32 /\
  zigzag_decode 5 = (if Z.even 5 then 5 / 2 else - (5 / 2) - 1).
Proof.
  assert (H : 0 <= 5 < 2 ^ 32) by lia.
  exact (conj H (proj1 (zigzag_decode_parity 5 H))).
Defined.

Lemma zigzag_roundtrip_nonnegative_witness :
  0 <= 7 < 2 ^ 31 /\ zigzag_decode (zigzag_encode (u32 7)) = 7.
Proof.
  assert (H : 0 <= 7 < 2 ^ 31) by lia.
  exact (conj H (proj2 (zigzag_roundtrip_nonnegative 7 H))).
Defined.

Lemma zigzag_negative_delta_witness :
  - 2 ^ 31 <= -1 < 0 /\ zigzag_encode (u32 (-1)) = 2 ^ 32 + 2 * -1 + 1.
Proof.
  assert (H : - 2 ^ 31 <= -1 < 0) by lia.
  exact (conj H (proj1 (zigzag_negative_delta (-1) H))).
Defined.

Lemma bit_count_least_width_witness :
  0 <= 5 < 2 ^ 32 /\ 0 <= 3 /\ (5 < 2 ^ 3 <-> bit_count 5 <= 3).
Proof.
  assert (H : 0 <= 5 < 2 ^ 32) by lia.
  assert (Hw : 0 <= 3) by lia.
  exact (conj H (conj Hw (bit_count_least_width 5 3 H Hw))).
Defined.

Lemma restore_max_of_high_witness :
  0 <= 2000 < 2 ^ 32 /\ 0 <= 2 <= 32 /\
  restore_max (Z.shiftr 2000 2) 2 = 2000 + (2 ^ 2 - 1 - 2000 mod 2 ^ 2).
Proof.
  assert (H : 0 <= 2000 < 2 ^ 32) by lia.
  assert (Hb : 0 <= 2 <= 32) by lia.
  exact (conj H (conj Hb (proj1 (restore_max_of_high 2000 2 H Hb)))).
Defined.



Lemma compress_params_confined_witness :
  (4 < THREAD_GROUP_COUNT * 0
   \/ THREAD_GROUP_COUNT * 0 + THREAD_GROUP_COUNT <= 4)%nat /\
  b_words (snd (compress_params ramp 0 0 empty_block)) = b_words empty_block.
Proof.
  assert (H : (4 < THREAD_GROUP_COUNT * 0
               \/ THREAD_GROUP_COUNT * 0 + THREAD_GROUP_COUNT <= 4)%nat)
    by (right; unfold THREAD_GROUP_COUNT; lia).
  exact (conj H (proj2 (proj2 (proj2
           (compress_params_confined ramp 0 0 empty_block 4 H))))).
Defined.

Lemma compress_params_table_bits_witness :
  (0 < BLOCK_SIZE)%nat /\ length (b_bits empty_block) = BLOCK_PARAM_COUNT /\
  (1 < THREAD_GROUP_COUNT)%nat /\
  nth (THREAD_GROUP_COUNT * 0 + 1)
      (b_bits (snd (compress_params ramp 0 0 empty_block))) 0
  = nth 1 (group_bits (fst (compress_params ramp 0 0 empty_block))) 0.
Proof.
  assert (H1 : (0 < BLOCK_SIZE)%nat) by (unfold BLOCK_SIZE; lia).
  assert (H2 : length (b_bits empty_block) = BLOCK_PARAM_COUNT)
    by (vm_compute; reflexivity).
  assert (H3 : (1 < THREAD_GROUP_COUNT)%nat)
    by (unfold THREAD_GROUP_COUNT; lia).
  exact (conj H1 (conj H2 (conj H3
           (compress_params_table_bits ramp 0 0 empty_block 1 H1 H2 H3)))).
Defined.

Lemma deinterleave_words_fit_witness :
  (3 <= 32)%nat /\
  Forall (fun v => 0 <= v < 2 ^ Z.of_nat 3)
         (deinterleave_words_1bit sample_words 3).
Proof.
  assert (H : (3 <= 32)%nat) by lia.
  exact (conj H (proj2 (deinterleave_words_fit sample_words 3 H))).
Defined.

Lemma decompress_thread_confined_witness :
  0 <= 1 /\
  (0 < Z.to_nat 1 * THREAD_FLOAT_COUNT
   \/ Z.to_nat 1 * THREAD_FLOAT_COUNT + THREAD_FLOAT_COUNT <= 0)%nat /\
  nth 0 (decompress_thread (one_group []) 1 0 (repeat 7 300)) 0
  = nth 0 (repeat 7 300) 0.
Proof.
  assert (H1 : 0 <= 1) by lia.
  assert (H2 : (0 < Z.to_nat 1 * THREAD_FLOAT_COUNT
                \/ Z.to_nat 1 * THREAD_FLOAT_COUNT + THREAD_FLOAT_COUNT
                   <= 0)%nat)
    by (left; vm_compute; lia).
  exact (conj H1 (conj H2
           (proj1 (decompress_thread_confined (one_group []) 1 0
                     (repeat 7 300) 0 H1 H2)))).
Defined.

Lemma pack_then_unpack_group_witness :
  (0 < THREAD_GROUP_COUNT)%nat /\
  length (repeat 0 THREAD_FLOAT_COUNT) = THREAD_FLOAT_COUNT /\
  0 <= nth 0 (group_bits sample_locals) 0 <= 32 /\
  (0 + Z.to_nat (nth 0 (group_bits sample_locals) 0%Z)
   <= length (repeat 0%Z 8))%nat /\
  nth (THREAD_GROUP_COUNT * 0 + 0) [3] 0 = nth 0 (group_bits sample_locals) 0 /\
  nth (THREAD_GROUP_COUNT * 0 + 0) [2] 0 = Z.of_nat 2 /\
  (2 < QUANT_GROUP_SIZE)%nat /\
  snd (unpack_group
         (mkBlock [2] [3] [0]
                  (fst (pack_group sample_locals (repeat 0 8, 0%nat) 0)))
         0 (repeat 0 THREAD_FLOAT_COUNT) 0 0)
  = snd (pack_group sample_locals (repeat 0 8, 0%nat) 0).
Proof.
  assert (H1 : (0 < THREAD_GROUP_COUNT)%nat)
    by (unfold THREAD_GROUP_COUNT; lia).
  assert (H2 : length (repeat 0 THREAD_FLOAT_COUNT) = THREAD_FLOAT_COUNT)
    by reflexivity.
  assert (H3 : 0 <= nth 0 (group_bits sample_locals) 0 <= 32)
    by (simpl; lia).
  assert (H4 : (0 + Z.to_nat (nth 0 (group_bits sample_locals) 0%Z)
                <= length (repeat 0%Z 8))%nat) by (vm_compute; lia).
  assert (H5 : nth (THREAD_GROUP_COUNT * 0 + 0) [3] 0
               = nth 0 (group_bits sample_locals) 0) by reflexivity.
  assert (H6 : nth (THREAD_GROUP_COUNT * 0 + 0) [2] 0 = Z.of_nat 2)
    by reflexivity.
  assert (H7 : (2 < QUANT_GROUP_SIZE)%nat)
    by (unfold QUANT_GROUP_SIZE; lia).
  exact (conj H1 (conj H2 (conj H3 (conj H4 (conj H5 (conj H6 (conj H7
           (proj1 (pack_then_unpack_group sample_locals (repeat 0 8)
                     (repeat 0 THREAD_FLOAT_COUNT) [2] [3] [0] 0 0 0 2
                     H1 H2 H3 H4 H5 H6 H7))))))))).
Defined.

Lemma block_used_words_law_witness :
  length (b_bits empty_block) = BLOCK_PARAM_COUNT /\
  r_block_used_words (SZplus_compress_kernel_f32 ramp 0 empty_block)
  = 8 * sum_bits
          (b_bits (r_block (SZplus_compress_kernel_f32 ramp 0 empty_block))).
Proof.
  assert (H : length (b_bits empty_block) = BLOCK_PARAM_COUNT)
    by (vm_compute; reflexivity).
  exact (conj H (proj1 (block_used_words_law ramp 0 empty_block H))).
Defined.

Lemma interleave_words_2bit_roundtrip_witness :
  (3 <= 32)%nat /\ length sample_words = 32%nat /\
  length (interleave_words_2bit sample_words 3) = (2 * ((3 + 2 - 1) / 2))%nat.
Proof.
  assert (H1 : (3 <= 32)%nat) by lia.
  assert (H2 : length sample_words = 32%nat) by reflexivity.
  exact (conj H1 (conj H2
           (proj1 (interleave_words_2bit_roundtrip 3 sample_words H1 H2)))).
Defined.

Lemma interleave_words_4bit_roundtrip_witness :
  (5 <= 32)%nat /\ length sample_words = 32%nat /\
  length (interleave_words_4bit sample_words 5) = (4 * ((5 + 4 - 1) / 4))%nat.
Proof.
  assert (H1 : (5 <= 32)%nat) by lia.
  assert (H2 : length sample_words = 32%nat) by reflexivity.
  exact (conj H1 (conj H2
           (proj1 (interleave_words_4bit_roundtrip 5 sample_words H1 H2)))).
Defined.

Lemma interleave_words_8bit_roundtrip_witness :
  (7 <= 32)%nat /\ length sample_words = 32%nat /\
  length (interleave_words_8bit sample_words 7) = (8 * ((7 + 8 - 1) / 8))%nat.
Proof.
  assert (H1 : (7 <= 32)%nat) by lia.
  assert (H2 : length sample_words = 32%nat) by reflexivity.
  exact (conj H1 (conj H2
           (proj1 (interleave_words_8bit_roundtrip 7 sample_words H1 H2)))).
Defined.
